(** * Syscall history report

    A shallow embedding of [scripts/syscalls_history.py]: the script loads
    the syscall tables named on the command line, sorts them by kernel
    version, and prints, for each table, its syscall count and the syscalls
    added, removed and renamed since the previous table.

    The file has these parts: the Python built-ins the script calls
    (module [Py]); the data and the script itself ([tag_to_tuple],
    [arch_bits_abi], [main] and the pieces of its loop); the notions the
    statements are written in and the sample inputs; and the properties
    proved of the script, by topic. *)

From Stdlib Require Import ZArith String Ascii HexString.
From stdpp Require Import gmap strings list sorting pretty.

(** ** Python built-ins *)

Module Py.

(** Exceptions the script can raise and does not catch. [LoadError] stands
    for whatever [open] or [json.load] raises on a missing or malformed
    file. *)
Inductive exn := AssertionError | IndexError | ValueError | LoadError.

(** ['\n'] and ['\033']. *)
Definition nl : string := String "010"%char "".
Definition ESC : ascii := "027"%char.

(** [str(n)] for an integer, and the format [{n:#x}]. *)
Definition str (n : Z) : string := pretty n.
Definition format_hex (n : Z) : string := HexString.of_Z n.

(** [' ' * n]. *)
Fixpoint spaces (n : nat) : string :=
  match n with
  | O => ""
  | S n' => String " " (spaces n')
  end.

(** [s.ljust(width)]: [s] followed by as many spaces as it takes to reach
    [width]; a longer [s] is returned as it is.  The length is counted in
    bytes, which is the number of characters of an ASCII string. *)
Definition ljust (width : nat) (s : string) : string :=
  s +:+ spaces (width - String.length s).

(** [s.split(sep)] for a one-character separator. *)
Fixpoint split (sep : ascii) (s : string) : list string :=
  match s with
  | "" => [""]
  | String c s' =>
      if Ascii.eqb c sep then "" :: split sep s'
      else match split sep s' with
           | [] => [String c ""]
           | w :: ws => String c w :: ws
           end
  end.

(** [int(s)] in base ten: surrounding white space (tab, line feed,
    vertical tab, form feed, carriage return, space) is dropped, one sign
    is allowed, and the digits may be grouped by single underscores.
    [None] is [ValueError].  Only ASCII is modelled: a digit or a space
    outside ASCII is a [ValueError] here. *)
Definition is_space (c : ascii) : bool :=
  let n := nat_of_ascii c in
  ((9 <=? n) && (n <=? 13)) || (n =? 32).

Fixpoint lstrip (s : string) : string :=
  match s with
  | String c s' => if is_space c then lstrip s' else s
  | "" => ""
  end.

Fixpoint rstrip (s : string) : string :=
  match s with
  | String c s' =>
      match rstrip s' with
      | "" => if is_space c then "" else String c ""
      | r => String c r
      end
  | "" => ""
  end.

Definition strip (s : string) : string := rstrip (lstrip s).

(** The value of a digit; what the scan of the digits has just read; the
    scan itself, [acc] being the value of the digits read so far. *)
Definition digit_val (c : ascii) : option Z :=
  let n := nat_of_ascii c in
  if (48 <=? n) && (n <=? 57) then Some (Z.of_nat (n - 48)) else None.

Inductive scan := AtStart | AfterDigit | AfterUnderscore.

Fixpoint int_digits (acc : Z) (st : scan) (s : string) : option Z :=
  match s with
  | "" => match st with AfterDigit => Some acc | _ => None end
  | String c s' =>
      match digit_val c with
      | Some d => int_digits (10 * acc + d)%Z AfterDigit s'
      | None =>
          match st with
          | AfterDigit =>
              if Ascii.eqb c "_" then int_digits acc AfterUnderscore s'
              else None
          | _ => None
          end
      end
  end.

Definition int (s : string) : option Z :=
  match strip s with
  | "" => None
  | String ch r =>
      if Ascii.eqb ch "-" then Z.opp <$> int_digits 0 AtStart r
      else if Ascii.eqb ch "+" then int_digits 0 AtStart r
      else int_digits 0 AtStart (String ch r)
  end.

(** [list.sort] and [sorted]: a stable sort that only ever asks whether one
    element is less than another.  [insert lt x l] puts [x], which stood
    before every element of [l], in front of the first element that is not
    less than it. *)
Fixpoint insert {A} (lt : A → A → bool) (x : A) (l : list A) : list A :=
  match l with
  | [] => [x]
  | y :: l' => if lt y x then y :: insert lt x l' else x :: y :: l'
  end.

Definition sorted {A} (lt : A → A → bool) (l : list A) : list A :=
  foldr (insert lt) [] l.

(** [dict(pairs)]: later pairs overwrite earlier ones with the same key. *)
Definition dict (pairs : list (Z * string)) : gmap Z string :=
  foldl (λ d kv, <[kv.1 := kv.2]> d) ∅ pairs.

(** [d.items()], as the set of pairs the view behaves as under [-]. *)
Definition items (d : gmap Z string) : gset (Z * string) :=
  map_to_set pair d.

End Py.

(** ** Data *)

(** A syscall record and a table, with the fields the script reads. *)
Record Syscall := { number : Z; name : string }.

Global Instance Syscall_eq_dec : EqDecision Syscall.
Proof. solve_decision. Defined.

Record Table := {
  version : string;
  architecture_name : string;
  architecture_bits : Z;
  abi_name : string;
  syscalls : list Syscall
}.

(** One component of a version tuple: an integer, or [float('inf')]. *)
Inductive vnum := Fin (n : Z) | Inf.

(** What the script finds outside: the files a pattern expands to, and the
    table a file parses to ([None]: [open] or [json.load] raises). *)
Record filesystem := {
  glob : string → list string;
  json_load : string → option Table
}.

(** How a run ends, and what it leaves on standard output.  [SysExit msg]
    is [sys.exit(msg)]: [msg] goes to standard error and the exit status
    is 1; an uncaught exception ends the run with status 1 too. *)
Inductive status := Exit0 | SysExit (msg : string) | Uncaught (e : Py.exn).

Record result := { stdout : string; exit : status }.

Definition exit_code (s : status) : Z :=
  match s with Exit0 => 0 | _ => 1 end.

Definition stderr (s : status) : option string :=
  match s with SysExit msg => Some msg | _ => None end.

(** The colour codes, chosen once from [isatty]. *)
Record colors := { RED : string; GREEN : string; BLUE : string; RESET : string }.

(** ** The script *)

(** [==] and [<] between two components of a version tuple: every integer
    is below [float('inf')]. *)
Definition vnum_eqb (a b : vnum) : bool :=
  match a, b with
  | Fin x, Fin y => (x =? y)%Z
  | Inf, Inf => true
  | _, _ => false
  end.

Definition vnum_ltb (a b : vnum) : bool :=
  match a, b with
  | Fin x, Fin y => (x <? y)%Z
  | Fin _, Inf => true
  | Inf, _ => false
  end.

(** [<] on tuples: decided at the first position where they differ; a
    proper prefix is less. *)
Fixpoint tuple_ltb (a b : list vnum) : bool :=
  match a, b with
  | [], [] => false
  | [], _ :: _ => true
  | _ :: _, [] => false
  | x :: a', y :: b' => if vnum_eqb x y then tuple_ltb a' b' else vnum_ltb x y
  end.

(** [tag_to_tuple]: [tag[0]] raises [IndexError] on the empty tag, the
    [assert] raises [AssertionError], and [int] raises [ValueError]. *)
Definition tag_to_tuple (tag : string) : Py.exn + list vnum :=
  if String.eqb tag "latest" then inr [Inf]
  else
    match tag with
    | "" => inl Py.IndexError
    | String c rest =>
        if Ascii.eqb c "v" then
          match mapM Py.int (Py.split "." rest) with
          | Some ns => inr (Fin <$> ns)
          | None => inl Py.ValueError
          end
        else inl Py.AssertionError
    end.

Definition arch_bits_abi (table : Table) : string :=
  architecture_name table +:+ "/" +:+ Py.str (architecture_bits table)
    +:+ "/" +:+ abi_name table.

(** The branch on [isatty(sys.stdout.fileno())], and the three symbols
    built from the colour codes. *)
Definition palette (isatty : bool) : colors :=
  if isatty then
    {| RED := String Py.ESC "[91m"; GREEN := String Py.ESC "[92m";
       BLUE := String Py.ESC "[94m"; RESET := String Py.ESC "[0m" |}
  else {| RED := ""; GREEN := ""; BLUE := ""; RESET := "" |}.

Definition PLUS (c : colors) : string := GREEN c +:+ "+".
Definition MINUS (c : colors) : string := RED c +:+ "-".
Definition RENAME (c : colors) : string := BLUE c +:+ "R".

(** The two nested loops over [argv[1:]] and the files of each pattern. *)
Fixpoint load_files (fs : filesystem) (fnames : list string) : option (list Table) :=
  match fnames with
  | [] => Some []
  | fname :: rest =>
      match json_load fs fname with
      | None => None
      | Some t => cons t <$> load_files fs rest
      end
  end.

Fixpoint load_tables (fs : filesystem) (patterns : list string) : option (list Table) :=
  match patterns with
  | [] => Some []
  | p :: rest =>
      match load_files fs (glob fs p) with
      | None => None
      | Some ts => app ts <$> load_tables fs rest
      end
  end.

(** [tables.sort(key=...)]: the keys are computed first, in list order, and
    the first one that raises ends the sort. *)
Fixpoint with_keys (tables : list Table) : Py.exn + list (list vnum * Table) :=
  match tables with
  | [] => inr []
  | t :: rest =>
      match tag_to_tuple (version t) with
      | inl e => inl e
      | inr k =>
          match with_keys rest with
          | inl e => inl e
          | inr kts => inr ((k, t) :: kts)
          end
      end
  end.

(** The sort compares the keys only. *)
Definition key_ltb (a b : list vnum * Table) : bool := tuple_ltb a.1 b.1.

Definition sort_tables (tables : list Table) : Py.exn + list Table :=
  match with_keys tables with
  | inl e => inl e
  | inr kts => inr (snd <$> Py.sorted key_ltb kts)
  end.

(** [set(map(lambda t: t['kernel']['version'], tables))]. *)
Definition tags (tables : list Table) : gset string :=
  list_to_set (version <$> tables).

(** [dict(map(itemgetter('number', 'name'), table['syscalls']))]. *)
Definition syscalls_of (table : Table) : gmap Z string :=
  Py.dict ((λ s, (number s, name s)) <$> syscalls table).

(** The counters and the [diff] dictionary of one comparison. *)
Record tally := {
  n_added : Z;
  n_removed : Z;
  n_renamed : Z;
  diff : gmap Z (string * string)
}.

(** [for num, name in removed: diff[num] = (MINUS, name)]. *)
Definition removed_loop (c : colors) (removed : list (Z * string))
    : gmap Z (string * string) :=
  foldl (λ d e, <[e.1 := (MINUS c, e.2)]> d) ∅ removed.

(** The body of [for num, name in added]. *)
Definition added_step (c : colors) (t : tally) (e : Z * string) : tally :=
  match diff t !! e.1 with
  | Some old =>
      {| n_added := n_added t - 1;
         n_removed := n_removed t - 1;
         n_renamed := n_renamed t + 1;
         diff := <[e.1 := (RENAME c, old.2 +:+ " -> " +:+ e.2)]> (diff t) |}
  | None =>
      {| n_added := n_added t;
         n_removed := n_removed t;
         n_renamed := n_renamed t;
         diff := <[e.1 := (PLUS c, e.2)]> (diff t) |}
  end.

(** The comparison of two tables, from the sets [added] and [removed] to
    the final counters and [diff].  [compare_in_order] runs the two loops
    over the sets in a given iteration order; [compare] takes the order of
    [elements], and [compare_any_order] below shows that the order does
    not matter. *)
Definition compare_in_order (c : colors) (len_added len_removed : nat)
    (removed added : list (Z * string)) : tally :=
  foldl (added_step c)
    {| n_added := Z.of_nat len_added;
       n_removed := Z.of_nat len_removed;
       n_renamed := 0;
       diff := removed_loop c removed |}
    added.

Definition compare (c : colors) (added removed : gset (Z * string)) : tally :=
  compare_in_order c (size added) (size removed) (elements removed) (elements added).

(** [<] on the items of [diff], which are pairs [(num, (op, name))]. *)
Definition pair_ltb (a b : string * string) : bool :=
  if String.eqb a.1 b.1 then String.ltb a.2 b.2 else String.ltb a.1 b.1.

Definition item_ltb (a b : Z * (string * string)) : bool :=
  if (a.1 =? b.1)%Z then pair_ltb a.2 b.2 else (a.1 <? b.1)%Z.

(** [sorted(diff.items())]. *)
Definition sorted_items (d : gmap Z (string * string)) : list (Z * (string * string)) :=
  Py.sorted item_ltb (map_to_list d).

(** [print(f'       {op} {num} ({num:#x}) {name}{RESET}')]. *)
Definition diff_line (c : colors) (e : Z * (string * string)) : string :=
  "       " +:+ e.2.1 +:+ " " +:+ Py.str e.1 +:+ " (" +:+ Py.format_hex e.1
    +:+ ") " +:+ e.2.2 +:+ RESET c +:+ Py.nl.

Definition diff_lines (c : colors) (d : gmap Z (string * string)) : list string :=
  diff_line c <$> sorted_items d.

(** The parenthesised summary, from [print(' (', end='')] to [print(')')]. *)
Definition summary (c : colors) (t : tally) : string :=
  " ("
  +:+ (if decide (n_added t = 0%Z) then ""
       else PLUS c +:+ Py.str (n_added t) +:+ RESET c)
  +:+ (if decide (n_removed t = 0%Z) then ""
       else (if decide (n_added t = 0%Z) then "" else "/")
              +:+ MINUS c +:+ Py.str (n_removed t) +:+ RESET c)
  +:+ (if decide (n_renamed t = 0%Z) then ""
       else (if decide (n_added t = 0%Z ∧ n_removed t = 0%Z) then "" else ", ")
              +:+ BLUE c +:+ Py.str (n_renamed t) +:+ " renamed" +:+ RESET c)
  +:+ ")" +:+ Py.nl.

(** [print(f'{tag.ljust(5)}:', len(syscalls), 'syscalls', end='')]. *)
Definition count_line (tag : string) (syscalls : gmap Z string) : string :=
  Py.ljust 5 tag +:+ ":" +:+ " " +:+ Py.str (Z.of_nat (size syscalls))
    +:+ " " +:+ "syscalls".

(** [syscalls - prev_syscalls] and [prev_syscalls - syscalls]. *)
Definition added_set (prev_syscalls syscalls : gmap Z string) : gset (Z * string) :=
  Py.items syscalls ∖ Py.items prev_syscalls.

Definition removed_set (prev_syscalls syscalls : gmap Z string) : gset (Z * string) :=
  Py.items prev_syscalls ∖ Py.items syscalls.

(** What one iteration prints after the count line. *)
Definition diff_report (c : colors) (prev_syscalls : option (gmap Z string))
    (syscalls : gmap Z string) : string :=
  match prev_syscalls with
  | None => Py.nl
  | Some prev =>
      let added := added_set prev syscalls in
      let removed := removed_set prev syscalls in
      if decide (added = ∅ ∧ removed = ∅) then Py.nl
      else
        let t := compare c added removed in
        summary c t +:+ String.concat "" (diff_lines c (diff t))
  end.

(** The message of the [sys.exit] inside the loop. *)
Definition incompatible (prev_arch arch : string) : string :=
  "Incompatible architectures: " +:+ prev_arch +:+ " and " +:+ arch +:+ "."
    +:+ Py.nl +:+ "Provided tables should all be for the same arch/bits/abi "
    +:+ "combination!".

(** [for table in tables]: [arch] and [syscalls] are the values the
    previous iteration left ([None] before the first). *)
Fixpoint loop (c : colors) (arch : option string)
    (syscalls : option (gmap Z string)) (tables : list Table) : result :=
  match tables with
  | [] => {| stdout := ""; exit := Exit0 |}
  | table :: rest =>
      let prev_arch := arch in
      let prev_syscalls := syscalls in
      let arch := arch_bits_abi table in
      let go_on :=
        let syscalls := syscalls_of table in
        let r := loop c (Some arch) (Some syscalls) rest in
        {| stdout := count_line (version table) syscalls
                       +:+ diff_report c prev_syscalls syscalls +:+ stdout r;
           exit := exit r |} in
      match prev_arch with
      | Some pa =>
          if decide (arch ≠ pa) then
            {| stdout := ""; exit := SysExit (incompatible pa arch) |}
          else go_on
      | None => go_on
      end
  end.

(** The messages of the two [sys.exit] calls before the loop. *)
Definition usage (prog : string) : string :=
  "Usage: " +:+ prog +:+ " table1.json table2.json ...".

Definition duplicate_versions : string :=
  "Multiple tables for the same kernel version!".

(** A run that ends before anything is printed. *)
Definition quiet (s : status) : result := {| stdout := ""; exit := s |}.

(** [main(argv)], on a file system and with the answer of [isatty].  With
    fewer than three items in [argv] the usage message reads [argv[0]],
    which raises [IndexError] when [argv] is empty. *)
Definition main (fs : filesystem) (isatty : bool) (argv : list string) : result :=
  if (length argv <? 3)%nat then
    match argv with
    | [] => quiet (Uncaught Py.IndexError)
    | prog :: _ => quiet (SysExit (usage prog))
    end
  else
    match load_tables fs (tail argv) with
    | None => quiet (Uncaught Py.LoadError)
    | Some tables =>
        match sort_tables tables with
        | inl e => quiet (Uncaught e)
        | inr tables =>
            if decide (size (tags tables) ≠ length tables) then
              quiet (SysExit duplicate_versions)
            else loop (palette isatty) None None tables
        end
    end.

(** ** Notions the statements use *)

(** [a <= b] on version tuples, as the sort sees it: [b] is not less than
    [a]. *)
Definition tuple_le (a b : list vnum) : Prop := tuple_ltb b a = false.

(** The key the sort uses for a table whose tag parses. *)
Definition key_of_tag (tag : string) : list vnum :=
  match tag_to_tuple tag with inr k => k | inl _ => [] end.

(** [tag_to_tuple] returns a tuple for the tag, rather than raising. *)
Definition parses (tag : string) : Prop := ∃ k, tag_to_tuple tag = inr k.

(** The order the sort leaves two tags in. *)
Definition tag_le (a b : string) : Prop := tuple_le (key_of_tag a) (key_of_tag b).

Global Instance tag_le_dec a b : Decision (tag_le a b).
Proof. unfold tag_le, tuple_le. apply _. Defined.

(** The four tags of the version-ordering example. *)
Definition release_tags : list string := ["v5.10"; "v5.11"; "v6.0"; "latest"].

(** The tag [v<n1>.<n2>...] of a list of integers. *)
Definition vtag (ns : list Z) : string :=
  String "v" (String.concat "." (Py.str <$> ns)).

(** Strings of ASCII digits. *)
Definition is_digit (ch : ascii) : Prop := is_Some (Py.digit_val ch).

Definition all_digits (s : string) : Prop :=
  Forall is_digit (list_ascii_of_string s).

(** A set of pairs that holds at most one pair per number. *)
Definition functional (X : gset (Z * string)) : Prop :=
  ∀ k v1 v2, (k, v1) ∈ X → (k, v2) ∈ X → v1 = v2.

(** The numbers of a set of pairs. *)
Definition numbers (X : gset (Z * string)) : gset Z := set_map fst X.

(** The value a set with one pair per number holds for a number. *)
Definition value_in (X : gset (Z * string)) (k : Z) : option string :=
  (list_to_map (elements X) : gmap Z string) !! k.

(** The entry the second loop leaves for a number it meets. *)
Definition entered (c : colors) (old : option (string * string)) (new : string)
    : string * string :=
  match old with
  | Some o => (RENAME c, o.2 +:+ " -> " +:+ new)
  | None => (PLUS c, new)
  end.

(** How many pairs of [l] have their number in [d]. *)
Definition hits (d : gmap Z (string * string)) (l : list (Z * string)) : Z :=
  Z.of_nat (length (filter (λ e, is_Some (d !! e.1)) l)).

(** The order of two items of [diff] by syscall number. *)
Definition num_lt (a b : Z * (string * string)) : Prop := (a.1 < b.1)%Z.

(** What the loop prints for each table while no descriptor differs: the
    count line, then the comparison with the table before. *)
Fixpoint blocks (c : colors) (prev_syscalls : option (gmap Z string))
    (tables : list Table) : list string :=
  match tables with
  | [] => []
  | table :: rest =>
      (count_line (version table) (syscalls_of table)
         +:+ diff_report c prev_syscalls (syscalls_of table))
        :: blocks c (Some (syscalls_of table)) rest
  end.

(** Every table has the descriptor [arch]. *)
Definition same_arch (arch : string) (tables : list Table) : Prop :=
  Forall (λ t, arch_bits_abi t = arch) tables.

(** The files the patterns on the command line expand to. *)
Definition resolved (fs : filesystem) (argv : list string) : list string :=
  concat (glob fs <$> tail argv).

(** "Left-padded" as the words have it: the padding stands to the left of
    the tag. *)
Definition left_padded (width : nat) (s : string) : string :=
  Py.spaces (width - String.length s) +:+ s.

(** A string without the escape character, and colour codes, dictionaries
    and tables whose strings have none. *)
Definition esc_free (s : string) : Prop := Py.ESC ∉ list_ascii_of_string s.

Global Instance esc_free_dec s : Decision (esc_free s).
Proof. unfold esc_free. apply _. Defined.

Definition clean_colors (c : colors) : Prop :=
  esc_free (RED c) ∧ esc_free (GREEN c) ∧ esc_free (BLUE c) ∧ esc_free (RESET c).

Definition clean_dict (d : gmap Z string) : Prop :=
  ∀ k v, d !! k = Some v → esc_free v.

Definition clean_table (t : Table) : Prop :=
  esc_free (version t) ∧ Forall (λ s, esc_free (name s)) (syscalls t).

Definition clean_names (t : Table) : Prop :=
  Forall (λ s, esc_free (name s)) (syscalls t).

Definition clean_arch (t : Table) : Prop :=
  esc_free (architecture_name t) ∧ esc_free (abi_name t).

(** What a comparison holds for a number, from the name the number has in
    the previous table and the name it has in the current one. *)
Definition classify (c : colors) (old new : option string) : option (string * string) :=
  match old, new with
  | Some o, Some n =>
      if decide (o = n) then None else Some (RENAME c, o +:+ " -> " +:+ n)
  | Some o, None => Some (MINUS c, o)
  | None, Some n => Some (PLUS c, n)
  | None, None => None
  end.

(** All tables have the same descriptor. *)
Definition one_arch (tables : list Table) : Prop :=
  ∀ a b, a ∈ tables → b ∈ tables → arch_bits_abi a = arch_bits_abi b.

(** A string without a slash. *)
Definition slash_free (s : string) : Prop := "/"%char ∉ list_ascii_of_string s.

(** A string with the colour codes taken out: what stands between an
    escape character and the next [m], both included, is dropped. *)
Fixpoint without_codes (inside : bool) (s : string) : string :=
  match s with
  | "" => ""
  | String ch rest =>
      if inside then without_codes (negb (Ascii.eqb ch "m")) rest
      else if Ascii.eqb ch Py.ESC then without_codes true rest
      else String ch (without_codes false rest)
  end.

(** An entry of [diff] with the colour code taken out of its symbol. *)
Definition plain_entry (e : string * string) : string * string :=
  (without_codes false e.1, e.2).

(** The version tuple of a table, and equality of tuples. *)
Definition key_of (t : Table) : list vnum := key_of_tag (version t).

Global Instance vnum_eq_dec : EqDecision vnum.
Proof. solve_decision. Defined.

Global Instance Table_eq_dec : EqDecision Table.
Proof. solve_decision. Defined.

(** The values [arch] and [syscalls] hold after the loop has gone through
    [tables] without a mismatch: those of the last table, or the ones the
    loop started with. *)
Definition arch_after (arch : option string) (tables : list Table) : option string :=
  match last tables with Some t => Some (arch_bits_abi t) | None => arch end.

Definition syscalls_after (prev : option (gmap Z string)) (tables : list Table)
    : option (gmap Z string) :=
  match last tables with Some t => Some (syscalls_of t) | None => prev end.

(** ** Sample inputs *)

(** A 64-bit table with the given tag, architecture name and syscalls. *)
Definition mk (tag : string) (arch : string) (calls : list (Z * string)) : Table :=
  {| version := tag; architecture_name := arch; architecture_bits := 64;
     abi_name := "x64";
     syscalls := (λ p, {| number := p.1; name := p.2 |}) <$> calls |}.

(** A file system that holds the listed files: the pattern [*] expands to
    all of them, any other pattern to the file of that name, if there is
    one. *)
Definition files_of (ts : list (string * Table)) : filesystem :=
  {| glob := λ p, if String.eqb p "*" then ts.*1
                  else if bool_decide (p ∈ ts.*1) then [p] else [];
     json_load := λ f, (list_to_map ts : gmap string Table) !! f |}.

Definition t_read_write : Table :=
  mk "v5.10" "x86" [(0, "read"); (1, "write")]%Z.
Definition t_read_write_open : Table :=
  mk "v5.11" "x86" [(0, "read"); (1, "write"); (2, "open")]%Z.
Definition t_foo : Table := mk "v5.10" "x86" [(5, "foo")]%Z.
Definition t_bar : Table := mk "v5.11" "x86" [(5, "bar")]%Z.

Definition t_5_9 : Table := mk "v5.9" "x86" [(0, "read")]%Z.
Definition t_arm : Table := mk "v5.12" "arm" [(0, "restart")]%Z.
Definition t_6_0 : Table := mk "v6.0" "x86" [(0, "read")]%Z.

Definition t_twice : Table :=
  mk "latest" "x86" [(0, "read"); (1, "write"); (0, "restart_syscall")]%Z.

Definition t_escape : Table :=
  mk "v5.11" "x86" [(5, String Py.ESC "[91mbar")]%Z.

Definition two_files : filesystem :=
  files_of [("a", t_read_write); ("b", t_read_write_open)].

Definition two_release_candidates : filesystem :=
  files_of [("a", mk "v5.11-rc1" "x86" [(0, "read")]%Z);
            ("b", mk "v5.11-rc1" "x86" [(0, "read"); (1, "write")]%Z)].

Definition mixed_files : filesystem :=
  files_of [("a", t_6_0); ("b", t_arm); ("c", t_read_write); ("d", t_5_9)].

(** ** The built-ins on sample values *)

Lemma int_samples :
  Py.int " 5 " = Some 5%Z ∧ Py.int "010" = Some 10%Z ∧ Py.int "1_0" = Some 10%Z ∧
  Py.int "-5" = Some (-5)%Z ∧ Py.int "+5" = Some 5%Z ∧
  Py.int "" = None ∧ Py.int "_1" = None ∧ Py.int "1_" = None ∧
  Py.int "1__0" = None ∧ Py.int "+ 5" = None ∧ Py.int "11-rc1" = None ∧
  Py.int "0x10" = None.
Proof. by vm_compute. Qed.

Lemma split_samples :
  Py.split "." "" = [""] ∧ Py.split "." "5.10" = ["5"; "10"] ∧
  Py.split "." "a." = ["a"; ""] ∧ Py.split "." "a..b" = ["a"; ""; "b"].
Proof. by vm_compute. Qed.

Lemma format_samples :
  Py.ljust 5 "v6.0" = "v6.0 " ∧ Py.ljust 5 "latest" = "latest" ∧
  Py.str (-5) = "-5" ∧ Py.format_hex 255 = "0xff" ∧
  Py.format_hex (-20) = "-0x14" ∧ Py.format_hex 0 = "0x0".
Proof. by vm_compute. Qed.

Lemma tag_to_tuple_samples :
  tag_to_tuple "v5.10" = inr [Fin 5; Fin 10] ∧
  tag_to_tuple "latest" = inr [Inf] ∧
  tag_to_tuple "v5.10.1" = inr [Fin 5; Fin 10; Fin 1] ∧
  tag_to_tuple "" = inl Py.IndexError ∧
  tag_to_tuple "5.10" = inl Py.AssertionError ∧
  tag_to_tuple "v" = inl Py.ValueError ∧
  tag_to_tuple "v5.11-rc1" = inl Py.ValueError.
Proof. by vm_compute. Qed.

(** ** Strings *)

Lemma app_assoc_s (a b d : string) : (a +:+ b) +:+ d = a +:+ b +:+ d.
Proof.
  induction a as [|ch a IH]; [done|].
  change (String ch ((a +:+ b) +:+ d) = String ch (a +:+ b +:+ d)).
  by rewrite IH.
Qed.

Lemma app_nil_r_s (a : string) : a +:+ "" = a.
Proof.
  induction a as [|ch a IH]; [done|].
  change (String ch (a +:+ "") = String ch a). by rewrite IH.
Qed.

Lemma concat_cons_s (x : string) (l : list string) :
  String.concat "" (x :: l) = x +:+ String.concat "" l.
Proof. destruct l; [by rewrite app_nil_r_s|done]. Qed.

(** ** The stable sort *)

Section sorted.

Context {A : Type} (lt : A → A → bool).

Lemma insert_Permutation x l : Py.insert lt x l ≡ₚ x :: l.
Proof.
  induction l as [|y l IH]; simpl; [done|].
  destruct (lt y x); [|done].
  rewrite IH. apply Permutation_swap.
Qed.

Lemma sorted_Permutation l : Py.sorted lt l ≡ₚ l.
Proof.
  induction l as [|x l IH]; simpl; [done|].
  unfold Py.sorted in *. simpl. by rewrite insert_Permutation, IH.
Qed.

(** Sorting by an order [R] that [lt] decides on the elements met. *)
Lemma insert_StronglySorted (R : relation A) x l :
  Transitive R →
  Forall (λ y, if lt y x then R y x else R x y) l →
  StronglySorted R l → StronglySorted R (Py.insert lt x l).
Proof.
  intros HR. induction l as [|y l IH]; simpl; intros Hx Hl.
  - repeat constructor.
  - apply Forall_cons in Hx as [Hy Hx].
    apply StronglySorted_cons in Hl as [Hyl Hl].
    destruct (lt y x).
    + apply StronglySorted_cons. split; [|by apply IH].
      rewrite insert_Permutation. by constructor.
    + apply StronglySorted_cons. split; [|by apply StronglySorted_cons].
      constructor; [done|].
      eapply Forall_impl; [exact Hyl|]. intros z Hz. by trans y.
Qed.

End sorted.

(** ** Version tuples are totally ordered *)

Lemma vnum_eqb_eq a b : vnum_eqb a b = true ↔ a = b.
Proof.
  destruct a, b; simpl; try (split; congruence).
  rewrite Z.eqb_eq. split; congruence.
Qed.

Lemma vnum_eqb_sym a b : vnum_eqb a b = vnum_eqb b a.
Proof. destruct a, b; simpl; try done. apply Z.eqb_sym. Qed.

Lemma vnum_ltb_asym a b : vnum_ltb a b = true → vnum_ltb b a = false.
Proof. destruct a, b; simpl; try done. lia. Qed.

Lemma vnum_ltb_total a b :
  vnum_eqb a b = false → vnum_ltb a b = false → vnum_ltb b a = true.
Proof. destruct a, b; simpl; try done. lia. Qed.

Lemma vnum_ltb_trans a b c :
  vnum_ltb a b = true → vnum_ltb b c = true → vnum_ltb a c = true.
Proof. destruct a, b, c; simpl; try done. lia. Qed.

Lemma tuple_ltb_asym a b : tuple_ltb a b = true → tuple_ltb b a = false.
Proof.
  revert b. induction a as [|x a IH]; intros [|y b]; simpl; try done.
  rewrite (vnum_eqb_sym y x). destruct (vnum_eqb x y); [apply IH|].
  apply vnum_ltb_asym.
Qed.

Global Instance tuple_le_trans : Transitive tuple_le.
Proof.
  unfold tuple_le. intros a. induction a as [|x a IH]; intros [|y b] [|z c]; simpl; try done.
  rewrite (vnum_eqb_sym y x), (vnum_eqb_sym z y), (vnum_eqb_sym z x).
  destruct (vnum_eqb x y) eqn:Exy.
  { apply vnum_eqb_eq in Exy as ->.
    destruct (vnum_eqb y z) eqn:Eyz; [apply IH|done]. }
  destruct (vnum_eqb y z) eqn:Eyz.
  { apply vnum_eqb_eq in Eyz as <-. by rewrite Exy. }
  intros Hyx Hzy.
  assert (vnum_ltb x y = true) as Hxy
    by (apply vnum_ltb_total; [by rewrite vnum_eqb_sym|done]).
  assert (vnum_ltb y z = true) as Hyz
    by (apply vnum_ltb_total; [by rewrite vnum_eqb_sym|done]).
  pose proof (vnum_ltb_trans _ _ _ Hxy Hyz) as Hxz.
  destruct (vnum_eqb x z) eqn:Exz.
  { apply vnum_eqb_eq in Exz as ->. by rewrite (vnum_ltb_asym _ _ Hyz) in Hxy. }
  by apply vnum_ltb_asym.
Qed.

Lemma with_keys_inr tables :
  Forall (λ t, parses (version t)) tables →
  with_keys tables = inr ((λ t, (key_of_tag (version t), t)) <$> tables).
Proof.
  induction 1 as [|t tables [k Ht] _ IH]; simpl; [done|].
  unfold key_of_tag. by rewrite IH, Ht.
Qed.

Lemma with_keys_inv tables kts :
  with_keys tables = inr kts →
  Forall (λ t, parses (version t)) tables.
Proof.
  revert kts. induction tables as [|t tables IH]; simpl; intros kts Hk; [done|].
  unfold parses. destruct (tag_to_tuple (version t)) eqn:Et; [done|].
  destruct (with_keys tables) eqn:Ew; [done|].
  constructor; [by eexists|by eapply IH].
Qed.

Lemma with_keys_inl tables e :
  with_keys tables = inl e →
  Exists (λ t, tag_to_tuple (version t) = inl e) tables.
Proof.
  induction tables as [|t tables IH]; simpl; [done|].
  destruct (tag_to_tuple (version t)) eqn:Et.
  { intros [= <-]. by left. }
  destruct (with_keys tables); [|done].
  intros [= <-]. right. by apply IH.
Qed.

Lemma sort_tables_inr tables sorted :
  sort_tables tables = inr sorted →
  Forall (λ t, parses (version t)) tables ∧
  sorted ≡ₚ tables ∧
  StronglySorted (λ a b, tuple_le (key_of_tag (version a)) (key_of_tag (version b))) sorted.
Proof.
  unfold sort_tables. destruct (with_keys tables) as [|kts] eqn:Ek; [done|].
  intros [= <-]. pose proof (with_keys_inv _ _ Ek) as Hp.
  rewrite (with_keys_inr _ Hp) in Ek. injection Ek as <-.
  split; [done|]. split.
  { rewrite sorted_Permutation, <-list_fmap_compose. simpl.
    by rewrite list_fmap_id. }
  set (dec := (λ t, (key_of_tag (version t), t))).
  assert (∀ l : list (list vnum * Table),
    Forall (λ kt, kt.1 = key_of_tag (version kt.2)) l →
    StronglySorted (λ a b, tuple_le a.1 b.1) (Py.sorted key_ltb l)) as Hs.
  { induction l as [|x l IH]; intros Hl; [constructor|].
    apply Forall_cons in Hl as [_ Hl]. unfold Py.sorted. simpl.
    apply insert_StronglySorted.
    - intros a b c. apply tuple_le_trans.
    - apply Forall_forall. intros y _. unfold key_ltb, tuple_le.
      destruct (tuple_ltb y.1 x.1) eqn:E; [by apply tuple_ltb_asym|done].
    - by apply IH. }
  assert (Forall (λ kt, kt.1 = key_of_tag (version kt.2)) (dec <$> tables)) as Hd.
  { apply Forall_fmap, Forall_forall. by intros. }
  assert (Forall (λ kt, kt.1 = key_of_tag (version kt.2)) (Py.sorted key_ltb (dec <$> tables))) as Hd'.
  { by rewrite sorted_Permutation. }
  specialize (Hs _ Hd). revert Hs Hd'.
  generalize (Py.sorted key_ltb (dec <$> tables)). intros l Hs.
  induction Hs as [|x l Hl IH Hx]; intros Hd'; simpl; [constructor|].
  apply Forall_cons in Hd' as [Hx' Hd']. constructor; [by apply IH|].
  apply Forall_fmap. rewrite Forall_forall in Hx, Hd'. apply Forall_forall.
  intros y Hy. simpl. rewrite <-Hx', <-(Hd' y Hy). by apply Hx.
Qed.

Lemma sort_tables_parses tables :
  Forall (λ t, parses (version t)) tables →
  ∃ sorted, sort_tables tables = inr sorted.
Proof.
  intros Hp. unfold sort_tables. rewrite (with_keys_inr _ Hp). eauto.
Qed.

Lemma sort_tables_tags tables sorted :
  sort_tables tables = inr sorted →
  version <$> sorted ≡ₚ version <$> tables ∧
  StronglySorted tag_le (version <$> sorted).
Proof.
  intros (_ & Hp & Hs)%sort_tables_inr. split; [by rewrite Hp|].
  eapply StronglySorted_fmap; [|exact Hs]. done.
Qed.

(** A tag other than [latest] that parses has a tuple of integers, one for
    each dot-separated part after the [v]. *)
Lemma tag_to_tuple_inr tag k :
  tag_to_tuple tag = inr k →
  (tag = "latest" ∧ k = [Inf]) ∨
  (∃ rest ns, tag = String "v" rest ∧ ns ≠ [] ∧
     mapM Py.int (Py.split "." rest) = Some ns ∧ k = Fin <$> ns).
Proof.
  unfold tag_to_tuple. destruct (String.eqb_spec tag "latest") as [->|Hne].
  { intros [= <-]. by left. }
  destruct tag as [|ch rest]; [done|].
  destruct (Ascii.eqb_spec ch "v") as [->|]; [|done].
  destruct (mapM Py.int (Py.split "." rest)) as [ns|] eqn:Ens; [|done].
  intros [= <-]. right. exists rest, ns. repeat split; try done.
  intros ->. apply mapM_Some in Ens. apply Forall2_nil_inv_r in Ens.
  by destruct rest as [|ch rest]; simpl in Ens;
    repeat (case_match; simplify_eq).
Qed.

Lemma integers_before_inf ns :
  ns ≠ [] → tuple_ltb (Fin <$> ns) [Inf] = true ∧ tuple_ltb [Inf] (Fin <$> ns) = false.
Proof. by destruct ns. Qed.

(** ** Tags written from integers *)

Lemma is_digit_pretty_N_char d : is_digit (pretty_N_char d).
Proof. unfold pretty_N_char. repeat case_match; by eexists. Qed.

Lemma digit_val_pretty_N_char d :
  (d < 10)%N → Py.digit_val (pretty_N_char d) = Some (Z.of_N d).
Proof.
  intros Hd.
  assert (d = 0 ∨ d = 1 ∨ d = 2 ∨ d = 3 ∨ d = 4 ∨ d = 5
          ∨ d = 6 ∨ d = 7 ∨ d = 8 ∨ d = 9)%N as Hcases by lia.
  by destruct Hcases as [->|[->|[->|[->|[->|[->|[->|[->|[->| ->]]]]]]]]].
Qed.

Lemma all_digits_pretty_N_go x s : all_digits s → all_digits (pretty_N_go x s).
Proof.
  revert s. induction (N.lt_wf_0 x) as [x _ IH]; intros s Hs.
  destruct (decide (0 < x)%N) as [Hx|Hx].
  - rewrite pretty_N_go_step by done. apply IH; [by apply N.div_lt|].
    constructor; [apply is_digit_pretty_N_char|done].
  - by replace x with 0%N by lia.
Qed.

Lemma str_nonneg n :
  (0 ≤ n)%Z → all_digits (Py.str n) ∧ Py.str n ≠ "".
Proof.
  intros Hn. unfold Py.str, pretty, pretty_Z. destruct n as [|p|p]; [|clear Hn|lia].
  { split; [|done]. repeat constructor. by eexists. }
  unfold pretty, pretty_positive, pretty, pretty_N.
  rewrite decide_False by done. split.
  - apply all_digits_pretty_N_go. constructor.
  - rewrite pretty_N_go_step by done.
    intros Hnil.
    assert (∀ x ch s, pretty_N_go x (String ch s) ≠ "") as Hne.
    { clear. intros x. induction (N.lt_wf_0 x) as [x _ IH]; intros ch s.
      destruct (decide (0 < x)%N) as [Hx|Hx].
      - rewrite pretty_N_go_step by done. apply IH. by apply N.div_lt.
      - by replace x with 0%N by lia. }
    by apply Hne in Hnil.
Qed.

Lemma int_digits_pretty_N_go x st s :
  (0 < x)%N →
  Py.int_digits 0 st (pretty_N_go x s) = Py.int_digits (Z.of_N x) Py.AfterDigit s.
Proof.
  revert s. induction (N.lt_wf_0 x) as [x _ IH]; intros s Hx.
  rewrite pretty_N_go_step by done.
  pose proof (N.div_mod x 10 ltac:(done)) as Hx10.
  destruct (N.eq_0_gt_0_cases (x `div` 10)) as [Hq|Hq].
  - rewrite Hq in *. rewrite pretty_N_go_0.
    cbn [Py.int_digits]. rewrite digit_val_pretty_N_char by by apply N.mod_lt.
    f_equal. lia.
  - rewrite IH by (done || by apply N.div_lt). cbn [Py.int_digits].
    rewrite digit_val_pretty_N_char by by apply N.mod_lt.
    f_equal. lia.
Qed.

Lemma is_digit_not_space ch : is_digit ch → Py.is_space ch = false.
Proof.
  unfold is_digit, Py.digit_val, Py.is_space. intros [d Hd].
  destruct (_ && _) eqn:E in Hd; [|done].
  apply andb_prop in E as [H1%Nat.leb_le H2%Nat.leb_le].
  apply orb_false_intro; [|by apply Nat.eqb_neq; lia].
  apply andb_false_iff. rewrite !Nat.leb_gt. lia.
Qed.

Lemma rstrip_digits s : all_digits s → Py.rstrip s = s.
Proof.
  induction s as [|ch s IH]; [done|]. intros [Hch Hs]%Forall_cons.
  cbn [Py.rstrip]. rewrite IH by done.
  destruct s; [|done]. by rewrite is_digit_not_space.
Qed.

Lemma strip_digits s : all_digits s → Py.strip s = s.
Proof.
  intros Hs. unfold Py.strip. destruct s as [|ch s]; [done|].
  cbn [Py.lstrip]. apply Forall_cons in Hs as Hs'. destruct Hs' as [Hch _].
  rewrite is_digit_not_space by done. by apply rstrip_digits.
Qed.

(** Reading back what [str] wrote. *)
Lemma int_str n : (0 ≤ n)%Z → Py.int (Py.str n) = Some n.
Proof.
  intros Hn. destruct (str_nonneg n Hn) as [Hd Hne].
  unfold Py.int. rewrite strip_digits by done.
  destruct (Py.str n) as [|ch r] eqn:Es; [done|].
  apply Forall_cons in Hd as Hd'. destruct Hd' as [[d Hch] _].
  destruct (Ascii.eqb_spec ch "-") as [->|_]; [done|].
  destruct (Ascii.eqb_spec ch "+") as [->|_]; [done|].
  rewrite <-Es. clear Es Hd Hne Hch.
  unfold Py.str, pretty, pretty_Z. destruct n as [|p|p]; [done| |lia].
  unfold pretty, pretty_positive, pretty, pretty_N.
  rewrite decide_False by done.
  by rewrite int_digits_pretty_N_go.
Qed.

Lemma split_no_dot s :
  "."%char ∉ list_ascii_of_string s → Py.split "." s = [s].
Proof.
  induction s as [|ch s IH]; [done|]. simpl.
  intros [Hch Hs]%not_elem_of_cons.
  destruct (Ascii.eqb_spec ch ".") as [->|_]; [done|]. by rewrite IH.
Qed.

Lemma split_app_dot s r :
  "."%char ∉ list_ascii_of_string s →
  Py.split "." (s +:+ String "." r) = s :: Py.split "." r.
Proof.
  induction s as [|ch s IH]; [done|]. simpl.
  intros [Hch Hs]%not_elem_of_cons.
  change (String ch s +:+ String "." r) with (String ch (s +:+ String "." r)).
  cbn [Py.split]. destruct (Ascii.eqb_spec ch ".") as [->|_]; [done|].
  by rewrite IH.
Qed.

Lemma split_concat ss :
  ss ≠ [] → Forall (λ s, "."%char ∉ list_ascii_of_string s) ss →
  Py.split "." (String.concat "." ss) = ss.
Proof.
  intros Hne Hss. induction Hss as [|s ss Hs Hss IH]; [done|].
  destruct ss as [|s' ss]; [by apply split_no_dot|].
  change (String.concat "." (s :: s' :: ss))
    with (s +:+ String "." (String.concat "." (s' :: ss))).
  rewrite split_app_dot by done. by rewrite IH.
Qed.

Lemma digits_no_dot s : all_digits s → "."%char ∉ list_ascii_of_string s.
Proof.
  intros Hs Hdot. unfold all_digits in Hs. rewrite Forall_forall in Hs.
  by destruct (Hs _ Hdot).
Qed.

Lemma tag_to_tuple_vtag ns :
  ns ≠ [] → Forall (λ n, (0 ≤ n)%Z) ns →
  tag_to_tuple (vtag ns) = inr (Fin <$> ns).
Proof.
  intros Hne Hns. unfold tag_to_tuple, vtag.
  destruct (String.eqb_spec (String "v" (String.concat "." (Py.str <$> ns))) "latest")
    as [Heq|_]; [done|].
  rewrite split_concat.
  - assert (mapM Py.int (Py.str <$> ns) = Some ns) as ->; [|done].
    apply mapM_Some, Forall2_fmap_l, Forall_Forall2_diag.
    eapply Forall_impl; [exact Hns|]. intros n Hn. by apply int_str.
  - by destruct ns.
  - apply Forall_fmap. eapply Forall_impl; [exact Hns|].
    intros n Hn. simpl. by apply digits_no_dot, str_nonneg.
Qed.

(** ** Version order *)

(** C3: the four tags v5.10, v5.11, v6.0 and latest come out of the sort in
    that order whatever order the tables were loaded in.  In general the
    sort returns the tables it was given, ordered by their version tuples:
    a later table's tuple is never less than an earlier one's, and nothing
    but [latest] follows [latest].  A tag other than [latest] has the tuple
    of the integers between its dots, which is below the tuple of
    [latest]; the tag written from a list of integers has that list as
    its tuple. *)
Theorem tables_sorted_by_version :
  (∀ tables,
     version <$> tables ≡ₚ release_tags →
     ∃ sorted, sort_tables tables = inr sorted ∧ version <$> sorted = release_tags) ∧
  (∀ tables sorted,
     sort_tables tables = inr sorted →
     sorted ≡ₚ tables ∧
     (∀ i j a b ka kb, i < j → sorted !! i = Some a → sorted !! j = Some b →
        tag_to_tuple (version a) = inr ka → tag_to_tuple (version b) = inr kb →
        tuple_ltb kb ka = false) ∧
     (∀ i j a b, i < j → sorted !! i = Some a → sorted !! j = Some b →
        version a = "latest" → version b = "latest")) ∧
  (∀ tag k,
     tag_to_tuple tag = inr k → tag ≠ "latest" →
     (∃ rest ns, tag = String "v" rest ∧
        mapM Py.int (Py.split "." rest) = Some ns ∧ k = Fin <$> ns) ∧
     tuple_ltb k (key_of_tag "latest") = true ∧
     tuple_ltb (key_of_tag "latest") k = false) ∧
  (∀ ns,
     ns ≠ [] → Forall (λ n, (0 ≤ n)%Z) ns →
     tag_to_tuple (vtag ns) = inr (Fin <$> ns)).
Proof.
  split; [|split; [|split]].
  - intros tables Hperm.
    assert (Forall (λ t, parses (version t)) tables) as Hp.
    { assert (Forall parses (version <$> tables)) as Hp.
      { rewrite Hperm. unfold release_tags. repeat constructor; by eexists. }
      by rewrite Forall_fmap in Hp. }
    destruct (sort_tables_parses _ Hp) as [sorted Hs]. exists sorted.
    split; [done|].
    destruct (sort_tables_tags _ _ Hs) as [Hperm' Hsorted].
    rewrite Hperm in Hperm'.
    apply (StronglySorted_unique_strong tag_le); try done.
    + intros x1 x2 Hx1 Hx2. rewrite Hperm' in Hx1. revert x1 x2 Hx1 Hx2.
      unfold release_tags. intros x1 x2. rewrite !elem_of_cons, !elem_of_nil.
      intros [->|[->|[->|[->|[]]]]] [->|[->|[->|[->|[]]]]]; by vm_compute.
    + unfold release_tags. repeat constructor; by vm_compute.
  - intros tables sorted Hs.
    destruct (sort_tables_inr _ _ Hs) as (Hp & Hperm & Hsorted).
    assert (∀ i j a b, i < j → sorted !! i = Some a → sorted !! j = Some b →
              tuple_le (key_of_tag (version a)) (key_of_tag (version b))) as Hle.
    { intros i j a b Hij Hi Hj.
      rewrite <-(take_drop j sorted) in Hsorted.
      apply (StronglySorted_app_1_elem_of _ _ _ a b Hsorted).
      - apply list_elem_of_lookup. exists i. by rewrite lookup_take_lt.
      - apply list_elem_of_lookup. exists 0. by rewrite lookup_drop, Nat.add_0_r. }
    split; [done|]. split.
    + intros i j a b ka kb Hij Hi Hj Ha Hb.
      specialize (Hle i j a b Hij Hi Hj).
      unfold tuple_le, key_of_tag in Hle. by rewrite Ha, Hb in Hle.
    + intros i j a b Hij Hi Hj Ha.
      specialize (Hle i j a b Hij Hi Hj).
      assert (parses (version b)) as [k Hk].
      { rewrite <-Hperm in Hp. rewrite Forall_forall in Hp.
        apply Hp. by eapply list_elem_of_lookup_2. }
      destruct (decide (version b = "latest")) as [|Hne]; [done|].
      destruct (tag_to_tuple_inr _ _ Hk) as [[? _]|(rest & ns & _ & Hns & _ & ->)];
        [done|].
      unfold tuple_le, key_of_tag in Hle. rewrite Ha, Hk in Hle.
      simpl in Hle. by rewrite (proj1 (integers_before_inf ns Hns)) in Hle.
  - intros tag k Hk Hne.
    destruct (tag_to_tuple_inr _ _ Hk) as [[? _]|(rest & ns & -> & Hns & Hm & ->)]; [done|].
    split; [by exists rest, ns|]. by apply integers_before_inf.
  - apply tag_to_tuple_vtag.
Qed.

(** The four tags, loaded in another order. *)
Lemma shuffled_release_tags_sorted :
  ∃ sorted,
    sort_tables [mk "latest" "x86" []; mk "v5.11" "x86" [];
                 mk "v6.0" "x86" []; mk "v5.10" "x86" []] = inr sorted ∧
    version <$> sorted = release_tags.
Proof.
  apply (proj1 tables_sorted_by_version).
  apply (bool_decide_unpack _). by vm_compute.
Defined.

(** ** The loop over the sorted tables *)

Lemma loop_cons_same c x prev t rest :
  arch_bits_abi t = x →
  loop c (Some x) prev (t :: rest) =
    {| stdout := count_line (version t) (syscalls_of t)
                   +:+ diff_report c prev (syscalls_of t)
                   +:+ stdout (loop c (Some x) (Some (syscalls_of t)) rest);
       exit := exit (loop c (Some x) (Some (syscalls_of t)) rest) |}.
Proof. intros <-. cbn [loop]. by rewrite decide_False by by intros []. Qed.

Lemma loop_cons_differ c x prev t rest :
  arch_bits_abi t ≠ x →
  loop c (Some x) prev (t :: rest) =
    {| stdout := ""; exit := SysExit (incompatible x (arch_bits_abi t)) |}.
Proof. intros Hne. cbn [loop]. by rewrite decide_True. Qed.

Lemma loop_cons_none c prev t rest :
  loop c None prev (t :: rest) =
    {| stdout := count_line (version t) (syscalls_of t)
                   +:+ diff_report c prev (syscalls_of t)
                   +:+ stdout (loop c (Some (arch_bits_abi t)) (Some (syscalls_of t)) rest);
       exit := exit (loop c (Some (arch_bits_abi t)) (Some (syscalls_of t)) rest) |}.
Proof. done. Qed.

Lemma loop_same_arch c x prev tables :
  same_arch x tables →
  loop c (Some x) prev tables =
    {| stdout := String.concat "" (blocks c prev tables); exit := Exit0 |}.
Proof.
  intros Hs. revert prev. induction Hs as [|t tables Ht _ IH]; intros prev; [done|].
  rewrite loop_cons_same, IH by done. cbn [stdout exit blocks].
  by rewrite concat_cons_s, app_assoc_s.
Qed.

Lemma loop_first c t tables :
  same_arch (arch_bits_abi t) tables →
  loop c None None (t :: tables) =
    {| stdout := String.concat "" (blocks c None (t :: tables)); exit := Exit0 |}.
Proof.
  intros Hs. cbn [loop]. rewrite (loop_same_arch _ _ _ _ Hs).
  cbn [stdout exit blocks]. by rewrite concat_cons_s, app_assoc_s.
Qed.

Lemma loop_mismatch c x prev done p t rest :
  same_arch x (done ++ [p]) → arch_bits_abi t ≠ x →
  loop c (Some x) prev (done ++ p :: t :: rest) =
    {| stdout := String.concat "" (blocks c prev (done ++ [p]));
       exit := SysExit (incompatible x (arch_bits_abi t)) |}.
Proof.
  unfold same_arch. revert prev.
  induction done as [|d done IH]; intros prev Hs Ht; cbn [app] in *.
  - rewrite Forall_singleton in Hs.
    rewrite loop_cons_same, loop_cons_differ by done.
    cbn [stdout exit blocks]. by rewrite concat_cons_s, app_assoc_s.
  - apply Forall_cons in Hs as [Hd Hs].
    rewrite loop_cons_same, IH by done.
    cbn [stdout exit blocks]. by rewrite concat_cons_s, app_assoc_s.
Qed.

Lemma loop_mismatch_first c done p t rest :
  same_arch (arch_bits_abi p) done → arch_bits_abi t ≠ arch_bits_abi p →
  loop c None None (done ++ p :: t :: rest) =
    {| stdout := String.concat "" (blocks c None (done ++ [p]));
       exit := SysExit (incompatible (arch_bits_abi p) (arch_bits_abi t)) |}.
Proof.
  intros Hs Ht. destruct done as [|d done]; cbn [app]; rewrite loop_cons_none.
  - rewrite loop_cons_differ by done. cbn. by rewrite app_nil_r_s.
  - apply Forall_cons in Hs as [Hd Hs]. rewrite Hd.
    rewrite loop_mismatch; [|by apply Forall_app_2; [|constructor]|done].
    cbn [stdout exit blocks]. by rewrite concat_cons_s, app_assoc_s.
Qed.

Lemma loop_exit c arch prev tables :
  exit (loop c arch prev tables) = Exit0 ∨
  ∃ x y, exit (loop c arch prev tables) = SysExit (incompatible x y).
Proof.
  revert arch prev. induction tables as [|t tables IH]; intros arch prev; [by left|].
  destruct arch as [x|].
  - destruct (decide (arch_bits_abi t = x)) as [Heq|Hne].
    + rewrite loop_cons_same by done. apply IH.
    + rewrite loop_cons_differ by done. right. eauto.
  - rewrite loop_cons_none. apply IH.
Qed.

(** ** The checks before the loop *)

Lemma size_list_to_set_le (l : list string) :
  size (list_to_set l : gset string) ≤ length l.
Proof.
  induction l as [|x l IH]; [done|]. simpl.
  rewrite size_union_alt, size_singleton.
  apply le_n_S. etrans; [|exact IH].
  apply subseteq_size, subseteq_difference_l. done.
Qed.

Lemma size_list_to_set_NoDup (l : list string) :
  size (list_to_set l : gset string) = length l ↔ NoDup l.
Proof.
  split; [|apply size_list_to_set].
  induction l as [|x l IH]; [constructor|]. simpl. intros Hs.
  destruct (decide (x ∈ l)) as [Hx|Hx].
  - assert ({[x]} ∪ list_to_set l = (list_to_set l : gset string)) as Heq.
    { apply subseteq_union_1_L, singleton_subseteq_l. by apply elem_of_list_to_set. }
    rewrite Heq in Hs. pose proof (size_list_to_set_le l). lia.
  - rewrite size_union, size_singleton in Hs.
    2:{ apply disjoint_singleton_l. by rewrite elem_of_list_to_set. }
    constructor; [done|]. apply IH. lia.
Qed.

Lemma tags_size tables :
  size (tags tables) = length tables ↔ NoDup (version <$> tables).
Proof.
  unfold tags. rewrite <-size_list_to_set_NoDup. by rewrite length_fmap.
Qed.

Lemma main_loaded fs isatty argv loaded :
  3 ≤ length argv →
  load_tables fs (tail argv) = Some loaded →
  main fs isatty argv =
    match sort_tables loaded with
    | inl e => quiet (Uncaught e)
    | inr tables =>
        if decide (NoDup (version <$> loaded)) then
          loop (palette isatty) None None tables
        else quiet (SysExit duplicate_versions)
    end.
Proof.
  intros Hlen Hload. unfold main.
  rewrite (proj2 (Nat.ltb_ge _ _) Hlen), Hload.
  destruct (sort_tables loaded) as [e|tables] eqn:Hsort; [done|].
  apply sort_tables_inr in Hsort as (_ & Hperm & _).
  assert (NoDup (version <$> loaded) ↔ size (tags tables) = length tables) as Hiff.
  { rewrite tags_size. by rewrite Hperm. }
  repeat case_decide; tauto.
Qed.

(** ** Usage error *)

(** Two patterns that match no file: no table is loaded, and the run ends
    with status 0 and no usage message.  One pattern that matches two
    files: the run ends with the usage message. *)
Lemma usage_counts_arguments_not_tables :
  (resolved two_files ["prog"; "x"; "y"] = [] ∧
   main two_files false ["prog"; "x"; "y"] = {| stdout := ""; exit := Exit0 |} ∧
   exit_code (exit (main two_files false ["prog"; "x"; "y"])) = 0%Z ∧
   stderr (exit (main two_files false ["prog"; "x"; "y"])) = None) ∧
  (resolved two_files ["prog"; "*"] = ["a"; "b"] ∧
   load_tables two_files ["*"] = Some [t_read_write; t_read_write_open] ∧
   main two_files false ["prog"; "*"] = quiet (SysExit (usage "prog"))).
Proof. by vm_compute. Qed.

(** C1, as the code has it: the usage error is raised exactly when fewer
    than two arguments follow the program name, whatever files they expand
    to; it goes to standard error, the status is 1 and nothing is
    printed. *)
Theorem usage_error_iff_few_arguments fs isatty prog args :
  let r := main fs isatty (prog :: args) in
  (length args < 2 →
     r = {| stdout := ""; exit := SysExit (usage prog) |} ∧
     stderr (exit r) = Some (usage prog) ∧ exit_code (exit r) = 1%Z) ∧
  (2 ≤ length args → ∀ p, exit r ≠ SysExit (usage p)).
Proof.
  intros r. split.
  - intros Hlen. assert (r = quiet (SysExit (usage prog))) as ->; [|done].
    unfold r, main. cbn [length].
    by rewrite (proj2 (Nat.ltb_lt (S (length args)) 3)) by lia.
  - intros Hlen p. unfold r.
    destruct (load_tables fs (tail (prog :: args))) as [loaded|] eqn:Hload.
    + rewrite (main_loaded _ _ _ loaded) by (done || cbn [length]; lia).
      destruct (sort_tables loaded) as [e|tables]; [done|].
      case_decide; [|done].
      by destruct (loop_exit (palette isatty) None None tables)
        as [->|(x & y & ->)].
    + unfold main. cbn [length].
      rewrite (proj2 (Nat.ltb_ge (S (length args)) 3)) by lia.
      by rewrite Hload.
Qed.

Lemma usage_error_one_argument :
  main two_files false ["prog"; "*"] =
    {| stdout := ""; exit := SysExit "Usage: prog table1.json table2.json ..." |}.
Proof.
  refine (proj1 (proj1 (usage_error_iff_few_arguments two_files false "prog" ["*"]) _)).
  simpl. lia.
Defined.

(** ** Duplicate versions *)

(** Two tables with the same tag that is not a tuple of integers: the run
    ends in the [ValueError] of [int], not in the duplicate-version
    message. *)
Lemma duplicate_unparsed_tags_raise :
  (version <$> [mk "v5.11-rc1" "x86" [(0, "read")]%Z;
                mk "v5.11-rc1" "x86" [(0, "read"); (1, "write")]%Z]
     = ["v5.11-rc1"; "v5.11-rc1"]) ∧
  load_tables two_release_candidates ["a"; "b"] =
    Some [mk "v5.11-rc1" "x86" [(0, "read")]%Z;
          mk "v5.11-rc1" "x86" [(0, "read"); (1, "write")]%Z] ∧
  main two_release_candidates false ["prog"; "a"; "b"] =
    {| stdout := ""; exit := Uncaught Py.ValueError |} ∧
  exit (main two_release_candidates false ["prog"; "a"; "b"])
    ≠ SysExit duplicate_versions.
Proof. by vm_compute. Qed.

(** C4, as the code has it: when two loaded tables have the same version
    tag the run prints nothing and ends with status 1; it ends with the
    duplicate-version message when every tag parses, and otherwise with the
    exception [tag_to_tuple] raised during the sort. *)
Theorem duplicate_versions_print_nothing fs isatty argv loaded i j a b :
  3 ≤ length argv →
  load_tables fs (tail argv) = Some loaded →
  i ≠ j → loaded !! i = Some a → loaded !! j = Some b →
  version a = version b →
  let r := main fs isatty argv in
  stdout r = "" ∧ exit_code (exit r) = 1%Z ∧
  ((∀ t, t ∈ loaded → parses (version t)) →
     exit r = SysExit duplicate_versions ∧
     stderr (exit r) = Some "Multiple tables for the same kernel version!") ∧
  ((∃ t, t ∈ loaded ∧ ¬ parses (version t)) →
     ∃ e t, t ∈ loaded ∧ tag_to_tuple (version t) = inl e ∧ exit r = Uncaught e).
Proof.
  intros Hlen Hload Hij Hi Hj Hv r.
  assert (¬ NoDup (version <$> loaded)) as Hdup.
  { intros Hnd. apply Hij.
    eapply (NoDup_lookup _ i j (version a)); [exact Hnd| |].
    - by rewrite list_lookup_fmap, Hi.
    - by rewrite list_lookup_fmap, Hj, Hv. }
  assert (r = match sort_tables loaded with
              | inl e => quiet (Uncaught e)
              | inr _ => quiet (SysExit duplicate_versions)
              end) as ->.
  { unfold r. rewrite (main_loaded _ _ _ loaded) by done.
    destruct (sort_tables loaded); [done|]. by rewrite decide_False. }
  destruct (sort_tables loaded) as [e|tables] eqn:Hsort.
  - split; [done|]. split; [done|]. split.
    + intros Hp. exfalso. apply Forall_forall in Hp.
      destruct (sort_tables_parses _ Hp). congruence.
    + intros _. unfold sort_tables in Hsort.
      destruct (with_keys loaded) eqn:Hk; [|done]. injection Hsort as ->.
      apply with_keys_inl, Exists_exists in Hk as (t & Ht & He). eauto.
  - apply sort_tables_inr in Hsort as (Hp & _).
    split; [done|]. split; [done|]. split; [done|].
    intros (t & Ht & Hnp). destruct Hnp. rewrite Forall_forall in Hp. eauto.
Qed.

Lemma duplicate_v5_11 :
  main (files_of [("a", mk "v5.11" "x86" [(0, "read")]%Z);
                  ("b", mk "v5.11" "x86" [(0, "read"); (1, "write")]%Z)])
       false ["prog"; "a"; "b"]
    = {| stdout := ""; exit := SysExit duplicate_versions |}.
Proof.
  pose proof (duplicate_versions_print_nothing
    (files_of [("a", mk "v5.11" "x86" [(0, "read")]%Z);
               ("b", mk "v5.11" "x86" [(0, "read"); (1, "write")]%Z)])
    false ["prog"; "a"; "b"] _ 0 1 _ _
    ltac:(simpl; lia) eq_refl ltac:(lia) eq_refl eq_refl eq_refl) as (Hout & _ & Hexit & _).
  destruct (main _ false _) as [out ex]. simpl in *. f_equal; [done|].
  apply Hexit. intros t. rewrite !elem_of_cons, elem_of_nil.
  intros [->|[->|[]]]; by eexists.
Defined.

(** ** Incompatible architectures *)

(** The first pair of neighbours with different descriptors. *)
Lemma first_mismatch before a b after :
  arch_bits_abi b ≠ arch_bits_abi a →
  ∃ earlier p t later,
    before ++ a :: b :: after = earlier ++ p :: t :: later ∧
    same_arch (arch_bits_abi p) earlier ∧
    arch_bits_abi t ≠ arch_bits_abi p ∧
    length earlier ≤ length before.
Proof.
  intros Hab. induction before as [|d before IH].
  { exists [], a, b, after. repeat split; [constructor|done|done]. }
  destruct IH as (earlier & p & t & later & Heq & Hs & Ht & Hlen).
  cbn [app]. rewrite Heq.
  destruct (decide (arch_bits_abi d = arch_bits_abi p)) as [Hd|Hd].
  { exists (d :: earlier), p, t, later.
    repeat split; [by constructor|done|simpl; lia]. }
  destruct earlier as [|e earlier].
  - exists [], d, p, (t :: later).
    repeat split; [constructor|by intros ?|simpl; lia].
  - apply Forall_cons in Hs as [He _].
    exists [], d, e, (earlier ++ p :: t :: later).
    repeat split; [constructor|congruence|simpl; lia].
Qed.

(** C5: when the sorted tables are [earlier], [p], [t], [later], the tables
    up to [p] have one descriptor and [t] has another, the run ends at [t]
    with status 1 and, on standard error, the two lines "Incompatible
    architectures: <descriptor of p> and <descriptor of t>." and "Provided
    tables should all be for the same arch/bits/abi combination!";
    standard output holds what was printed for the tables up to [p], which
    is the whole report of those tables, and nothing of [t] or of [later].
    Wherever two neighbours [a], [b] differ, there is a first such pair
    [p], [t], at that place or before it, and the run ends there in the
    same way. *)
Theorem arch_mismatch_stops_report fs isatty argv loaded sorted :
  3 ≤ length argv →
  load_tables fs (tail argv) = Some loaded →
  sort_tables loaded = inr sorted →
  NoDup (version <$> loaded) →
  let r := main fs isatty argv in
  (∀ earlier p t later,
     sorted = earlier ++ p :: t :: later →
     same_arch (arch_bits_abi p) earlier →
     arch_bits_abi t ≠ arch_bits_abi p →
     exit r = SysExit (incompatible (arch_bits_abi p) (arch_bits_abi t)) ∧
     stderr (exit r) =
       Some ("Incompatible architectures: " +:+ arch_bits_abi p +:+ " and "
               +:+ arch_bits_abi t +:+ "." +:+ Py.nl
               +:+ "Provided tables should all be for the same arch/bits/abi combination!") ∧
     exit_code (exit r) = 1%Z ∧
     stdout r = String.concat "" (blocks (palette isatty) None (earlier ++ [p])) ∧
     loop (palette isatty) None None (earlier ++ [p]) =
       {| stdout := stdout r; exit := Exit0 |}) ∧
  (∀ before a b after,
     sorted = before ++ a :: b :: after →
     arch_bits_abi b ≠ arch_bits_abi a →
     ∃ earlier p t later,
       sorted = earlier ++ p :: t :: later ∧
       length earlier ≤ length before ∧
       arch_bits_abi t ≠ arch_bits_abi p ∧
       exit r = SysExit (incompatible (arch_bits_abi p) (arch_bits_abi t)) ∧
       stderr (exit r) =
         Some ("Incompatible architectures: " +:+ arch_bits_abi p +:+ " and "
                 +:+ arch_bits_abi t +:+ "." +:+ Py.nl
                 +:+ "Provided tables should all be for the same arch/bits/abi combination!") ∧
       stdout r = String.concat "" (blocks (palette isatty) None (earlier ++ [p]))).
Proof.
  intros Hlen Hload Hsort Hnd r.
  assert (∀ earlier p t later,
     sorted = earlier ++ p :: t :: later →
     same_arch (arch_bits_abi p) earlier →
     arch_bits_abi t ≠ arch_bits_abi p →
     r = {| stdout := String.concat "" (blocks (palette isatty) None (earlier ++ [p]));
            exit := SysExit (incompatible (arch_bits_abi p) (arch_bits_abi t)) |})
    as Hrun.
  { intros earlier p t later -> Hs Ht. unfold r.
    rewrite (main_loaded _ _ _ loaded), Hsort, decide_True by done.
    by rewrite loop_mismatch_first. }
  split.
  - intros earlier p t later Heq Hs Ht. rewrite (Hrun _ _ _ _ Heq Hs Ht).
    cbn [stdout exit]. split; [done|]. split; [done|]. split; [done|].
    split; [done|].
    destruct earlier as [|e earlier]; cbn [app].
    + by rewrite loop_first by constructor.
    + apply Forall_cons in Hs as [He Hs']. rewrite loop_first; [done|].
      rewrite He. by apply Forall_app_2; [|constructor].
  - intros before a b after Heq Hab.
    destruct (first_mismatch before a b after Hab)
      as (earlier & p & t & later & Heq' & Hs & Ht & Hle).
    rewrite <-Heq in Heq'. exists earlier, p, t, later.
    by rewrite (Hrun _ _ _ _ Heq' Hs Ht).
Qed.

Lemma arch_mismatch_x86_arm :
  main mixed_files false ["prog"; "*"; "e"] =
    {| stdout := "v5.9 : 1 syscalls" +:+ Py.nl +:+
                 "v5.10: 2 syscalls (+1)" +:+ Py.nl +:+
                 "       + 1 (0x1) write" +:+ Py.nl;
       exit := SysExit ("Incompatible architectures: x86/64/x64 and arm/64/x64."
                          +:+ Py.nl +:+
                        "Provided tables should all be for the same arch/bits/abi combination!") |}.
Proof.
  assert (NoDup (version <$> [t_6_0; t_arm; t_read_write; t_5_9])) as Hnd.
  { apply (bool_decide_unpack _). by vm_compute. }
  destruct (proj1 (arch_mismatch_stops_report mixed_files false ["prog"; "*"; "e"]
    [t_6_0; t_arm; t_read_write; t_5_9] [t_5_9; t_read_write; t_arm; t_6_0]
    ltac:(simpl; lia) eq_refl eq_refl Hnd) [t_5_9] t_read_write t_arm [t_6_0])
    as (Hexit & _ & _ & Hout & _).
  - done.
  - by repeat constructor.
  - by vm_compute.
  - destruct (main mixed_files false _) as [out ex]. simpl in *.
    by rewrite Hexit, Hout.
Defined.

(** ** Dictionaries and their item views *)

Lemma dict_snoc l k v : Py.dict (l ++ [(k, v)]) = <[k := v]> (Py.dict l).
Proof. unfold Py.dict. by rewrite foldl_snoc. Qed.

(** The value under a key is the one of the last pair with that key. *)
Lemma dict_lookup l k :
  Py.dict l !! k = snd <$> last (filter (λ e, e.1 = k) l).
Proof.
  induction l as [|[k' v] l IH] using rev_ind; [done|].
  rewrite dict_snoc, filter_app, filter_cons, filter_nil. simpl.
  case_decide as Hk.
  - subst. by rewrite lookup_insert_eq, last_snoc.
  - rewrite lookup_insert_ne, app_nil_r by done. apply IH.
Qed.

Lemma dict_dom l : dom (Py.dict l) = list_to_set l.*1.
Proof.
  induction l as [|[k v] l IH] using rev_ind; [done|].
  rewrite dict_snoc, dom_insert_L, IH, fmap_app, list_to_set_app_L. simpl.
  rewrite union_empty_r_L. apply union_comm_L.
Qed.

Lemma dict_list_to_map l : Py.dict l = list_to_map (reverse l).
Proof.
  induction l as [|[k v] l IH] using rev_ind; [done|].
  by rewrite dict_snoc, reverse_snoc, IH.
Qed.

(** With one record per number, the order of the records does not matter. *)
Lemma dict_Permutation l1 l2 :
  NoDup l1.*1 → l1 ≡ₚ l2 → Py.dict l1 = Py.dict l2.
Proof.
  intros Hnd Hp. rewrite !dict_list_to_map. apply list_to_map_proper.
  - by rewrite fmap_reverse, reverse_Permutation.
  - by rewrite !reverse_Permutation.
Qed.

Lemma syscalls_of_Permutation t1 t2 :
  NoDup (number <$> syscalls t1) → syscalls t1 ≡ₚ syscalls t2 →
  syscalls_of t1 = syscalls_of t2.
Proof.
  intros Hnd Hp. unfold syscalls_of. apply dict_Permutation; [|by rewrite Hp].
  by rewrite <-list_fmap_compose.
Qed.

Lemma size_dict l : size (Py.dict l) = length (remove_dups l.*1).
Proof.
  rewrite <-size_dom, dict_dom.
  rewrite <-(size_list_to_set (C := gset Z) (remove_dups l.*1))
    by apply NoDup_remove_dups.
  f_equal. apply set_eq. intros k.
  by rewrite !elem_of_list_to_set, elem_of_remove_dups.
Qed.

Lemma syscalls_of_lookup table n :
  syscalls_of table !! n =
    name <$> last (filter (λ s, number s = n) (syscalls table)).
Proof.
  unfold syscalls_of. induction (syscalls table) as [|s l IH] using rev_ind; [done|].
  rewrite fmap_app. cbn [fmap list_fmap]. rewrite dict_snoc, filter_app.
  rewrite filter_cons, filter_nil. case_decide as Hn.
  - rewrite Hn, lookup_insert_eq. by rewrite last_snoc.
  - rewrite lookup_insert_ne, app_nil_r by done. apply IH.
Qed.

Lemma size_syscalls_of table :
  size (syscalls_of table) = length (remove_dups (number <$> syscalls table)).
Proof.
  unfold syscalls_of. rewrite size_dict. do 2 f_equal.
  by rewrite <-list_fmap_compose.
Qed.

Lemma elem_of_items d k v : (k, v) ∈ Py.items d ↔ d !! k = Some v.
Proof. apply elem_of_map_to_set_pair. Qed.

Lemma elem_of_added_set prev cur k v :
  (k, v) ∈ added_set prev cur ↔ cur !! k = Some v ∧ prev !! k ≠ Some v.
Proof. unfold added_set. by rewrite elem_of_difference, !elem_of_items. Qed.

Lemma elem_of_removed_set prev cur k v :
  (k, v) ∈ removed_set prev cur ↔ prev !! k = Some v ∧ cur !! k ≠ Some v.
Proof. unfold removed_set. by rewrite elem_of_difference, !elem_of_items. Qed.

Lemma added_set_functional prev cur : functional (added_set prev cur).
Proof.
  intros k v1 v2 [H1 _]%elem_of_added_set [H2 _]%elem_of_added_set. congruence.
Qed.

Lemma removed_set_functional prev cur : functional (removed_set prev cur).
Proof.
  intros k v1 v2 [H1 _]%elem_of_removed_set [H2 _]%elem_of_removed_set. congruence.
Qed.

Lemma functional_NoDup X : functional X → NoDup (elements X).*1.
Proof.
  intros HX. apply NoDup_fmap_fst; [|apply NoDup_elements].
  intros k v1 v2 H1%elem_of_elements H2%elem_of_elements. by eapply HX.
Qed.

Lemma elem_of_numbers X k : k ∈ numbers X ↔ ∃ v, (k, v) ∈ X.
Proof.
  unfold numbers. rewrite elem_of_map. split.
  - intros [[k' v] [-> H]]. by exists v.
  - intros [v H]. by exists (k, v).
Qed.

Lemma size_numbers X : functional X → size (numbers X) = size X.
Proof.
  intros HX. unfold numbers, set_map.
  rewrite size_list_to_set by by apply functional_NoDup.
  by rewrite length_fmap.
Qed.

Lemma value_in_Some X k v : functional X → value_in X k = Some v ↔ (k, v) ∈ X.
Proof.
  intros HX. unfold value_in.
  rewrite <-elem_of_list_to_map by by apply functional_NoDup.
  apply elem_of_elements.
Qed.

Lemma value_in_is_Some X k : functional X → is_Some (value_in X k) ↔ k ∈ numbers X.
Proof.
  intros HX. rewrite elem_of_numbers. unfold is_Some.
  by setoid_rewrite (value_in_Some X k _ HX).
Qed.

(** ** The count line *)

(** The tag v5.9 is printed with the space after it, not before it. *)
Lemma count_line_pads_on_the_right :
  count_line (version t_5_9) (syscalls_of t_5_9) = "v5.9 : 1 syscalls" ∧
  left_padded 5 (version t_5_9) +:+ ": 1 syscalls" = " v5.9: 1 syscalls" ∧
  count_line (version t_5_9) (syscalls_of t_5_9)
    ≠ left_padded 5 (version t_5_9) +:+ ": 1 syscalls" ∧
  stdout (main (files_of [("a", t_5_9); ("b", t_6_0)]) false ["prog"; "a"; "b"]) =
    "v5.9 : 1 syscalls" +:+ Py.nl +:+ "v6.0 : 1 syscalls" +:+ Py.nl.
Proof. by vm_compute. Qed.

(** C7, as the code has it: the line of a table is its version tag,
    followed by spaces up to a width of five characters (a longer tag is
    printed whole), a colon, and the number of distinct syscall numbers of
    the table; of the records that share a number the last one gives the
    name.  The line opens what the loop prints for the table. *)
Theorem count_line_counts_distinct_numbers (table : Table) :
  let tag := version table in
  let d := syscalls_of table in
  count_line tag d =
    tag +:+ Py.spaces (5 - String.length tag) +:+ ": "
      +:+ Py.str (Z.of_nat (length (remove_dups (number <$> syscalls table))))
      +:+ " syscalls" ∧
  size d = length (remove_dups (number <$> syscalls table)) ∧
  (∀ n, d !! n = name <$> last (filter (λ s, number s = n) (syscalls table))) ∧
  (∀ c prev rest,
     blocks c prev (table :: rest) =
       (count_line tag d +:+ diff_report c prev d) :: blocks c (Some d) rest) ∧
  (∀ c rest,
     same_arch (arch_bits_abi table) rest →
     stdout (loop c None None (table :: rest)) =
       String.concat "" (blocks c None (table :: rest))).
Proof.
  intros tag d. split; [|split; [|split; [|split]]].
  - unfold count_line, Py.ljust, d. rewrite size_syscalls_of.
    by rewrite !app_assoc_s.
  - apply size_syscalls_of.
  - apply syscalls_of_lookup.
  - done.
  - intros c rest Hs. by rewrite loop_first.
Qed.

Lemma count_line_of_repeated_number :
  count_line (version t_twice) (syscalls_of t_twice) = "latest: 2 syscalls" ∧
  syscalls_of t_twice !! 0%Z = Some "restart_syscall" ∧
  stdout (loop (palette false) None None [t_twice]) =
    "latest: 2 syscalls" +:+ Py.nl.
Proof.
  destruct (count_line_counts_distinct_numbers t_twice) as (Hl & _ & Hn & _ & Hs).
  split; [by rewrite Hl|]. split; [by rewrite Hn|].
  rewrite Hs; [done|]. by repeat constructor.
Defined.

(** ** The two loops of a comparison *)

Lemma tally_eq (t1 t2 : tally) :
  n_added t1 = n_added t2 → n_removed t1 = n_removed t2 →
  n_renamed t1 = n_renamed t2 → diff t1 = diff t2 → t1 = t2.
Proof. destruct t1, t2. simpl. congruence. Qed.

Section compare.

Context (c : colors).

Lemma removed_loop_from (d : gmap Z (string * string)) l k :
  NoDup l.*1 →
  foldl (λ d e, <[e.1 := (MINUS c, e.2)]> d) d l !! k =
    match (list_to_map l : gmap Z string) !! k with
    | Some v => Some (MINUS c, v)
    | None => d !! k
    end.
Proof.
  revert d. induction l as [|[k' v] l IH]; intros d Hl; simpl; [done|].
  apply NoDup_cons in Hl as [Hk' Hl]. rewrite IH by done.
  destruct (decide (k = k')) as [->|Hne].
  - rewrite lookup_insert_eq.
    by rewrite (not_elem_of_list_to_map_1 _ _ Hk'), lookup_insert_eq.
  - rewrite !lookup_insert_ne by done. done.
Qed.

Lemma removed_loop_lookup removed k :
  functional removed →
  removed_loop c (elements removed) !! k =
    (λ v, (MINUS c, v)) <$> value_in removed k.
Proof.
  intros HX. unfold removed_loop, value_in.
  rewrite removed_loop_from by by apply functional_NoDup.
  by destruct (_ !! k).
Qed.

Lemma hits_insert d k x l :
  k ∉ l.*1 → hits (<[k := x]> d) l = hits d l.
Proof.
  intros Hk. unfold hits. f_equal. induction l as [|e l IH]; [done|].
  apply not_elem_of_cons in Hk as [Hne Hk].
  rewrite !filter_cons, lookup_insert_ne by done.
  case_decide; simpl; rewrite IH; done.
Qed.

Lemma hits_cons d e l :
  hits d (e :: l) = ((if d !! e.1 is Some _ then 1 else 0) + hits d l)%Z.
Proof.
  unfold hits. rewrite filter_cons.
  destruct (d !! e.1) eqn:E.
  - rewrite decide_True by by eexists. simpl. lia.
  - rewrite decide_False by by intros [??]. lia.
Qed.

Lemma added_loop t l :
  NoDup l.*1 →
  let t' := foldl (added_step c) t l in
  (∀ k, diff t' !! k =
          match (list_to_map l : gmap Z string) !! k with
          | Some new => Some (entered c (diff t !! k) new)
          | None => diff t !! k
          end) ∧
  n_renamed t' = (n_renamed t + hits (diff t) l)%Z ∧
  n_added t' = (n_added t - hits (diff t) l)%Z ∧
  n_removed t' = (n_removed t - hits (diff t) l)%Z.
Proof.
  revert t. induction l as [|[k' v] l IH]; intros t Hl; simpl.
  { unfold hits. simpl. repeat split; lia || done. }
  apply NoDup_cons in Hl as [Hk' Hl].
  destruct (IH (added_step c t (k', v)) Hl) as (Hd & Hr & Ha & Hm).
  rewrite Hr, Ha, Hm, hits_cons. clear Hr Ha Hm IH. simpl.
  assert (diff (added_step c t (k', v)) =
          <[k' := entered c (diff t !! k') v]> (diff t)) as Hs.
  { unfold added_step. simpl. by destruct (diff t !! k'). }
  rewrite Hs, hits_insert by done. split.
  { intros k. rewrite Hd, Hs.
    destruct (decide (k = k')) as [->|Hne].
    - by rewrite (not_elem_of_list_to_map_1 _ _ Hk'), !lookup_insert_eq.
    - by rewrite !lookup_insert_ne. }
  unfold added_step. simpl. destruct (diff t !! k'); simpl; lia.
Qed.

Lemma length_filter_fst (P : Z → Prop) `{!∀ k, Decision (P k)}
    `{!∀ e : Z * string, Decision (P e.1)} (l : list (Z * string)) :
  length (filter (λ e, P e.1) l) = length (filter P l.*1).
Proof.
  induction l as [|e l IH]; [done|].
  rewrite fmap_cons, !filter_cons. simpl.
  destruct (decide (P e.1)), (decide (P e.1)); simpl; done || by rewrite IH.
Qed.

Context (added removed : gset (Z * string)).
Context (Hadded : functional added) (Hremoved : functional removed).

Lemma hits_numbers :
  hits (removed_loop c (elements removed)) (elements added) =
    Z.of_nat (size (numbers added ∩ numbers removed)).
Proof.
  unfold hits. f_equal.
  rewrite (list_filter_iff _ (λ e, e.1 ∈ numbers removed)).
  2:{ intros e. rewrite removed_loop_lookup, <-value_in_is_Some by done.
      by rewrite fmap_is_Some. }
  rewrite (length_filter_fst (λ k, k ∈ numbers removed)).
  rewrite <-(size_list_to_set (C := gset Z))
    by by apply NoDup_filter, functional_NoDup.
  f_equal. apply set_eq. intros k.
  rewrite elem_of_list_to_set, list_elem_of_filter, elem_of_intersection.
  unfold numbers at 2, set_map. rewrite elem_of_list_to_set. tauto.
Qed.

(** What the comparison leaves in [diff] for each number. *)
Lemma compare_lookup k :
  diff (compare c added removed) !! k =
    match value_in added k with
    | Some new => Some (entered c ((λ v, (MINUS c, v)) <$> value_in removed k) new)
    | None => (λ v, (MINUS c, v)) <$> value_in removed k
    end.
Proof.
  unfold compare, compare_in_order.
  destruct (added_loop
    {| n_added := Z.of_nat (size added); n_removed := Z.of_nat (size removed);
       n_renamed := 0; diff := removed_loop c (elements removed) |}
    (elements added) (functional_NoDup _ Hadded)) as (Hd & _).
  rewrite Hd. simpl. by rewrite removed_loop_lookup.
Qed.

Lemma compare_counts :
  let r := Z.of_nat (size (numbers added ∩ numbers removed)) in
  let t := compare c added removed in
  n_renamed t = r ∧
  n_added t = (Z.of_nat (size added) - r)%Z ∧
  n_removed t = (Z.of_nat (size removed) - r)%Z.
Proof.
  unfold compare, compare_in_order.
  destruct (added_loop
    {| n_added := Z.of_nat (size added); n_removed := Z.of_nat (size removed);
       n_renamed := 0; diff := removed_loop c (elements removed) |}
    (elements added) (functional_NoDup _ Hadded)) as (_ & Hr & Ha & Hm).
  simpl in *. rewrite hits_numbers in Hr, Ha, Hm. by rewrite Hr, Ha, Hm.
Qed.

Lemma compare_dom :
  dom (diff (compare c added removed)) = numbers added ∪ numbers removed.
Proof.
  apply set_eq. intros k.
  rewrite elem_of_dom, compare_lookup, elem_of_union.
  rewrite <-!value_in_is_Some by done.
  destruct (value_in added k), (value_in removed k); simpl;
    (split; [eauto|]); try done.
  by intros [[]|[]].
Qed.

Lemma renamed_le_added : size (numbers added ∩ numbers removed) ≤ size added.
Proof.
  rewrite <-(size_numbers added) by done. apply subseteq_size.
  apply intersection_subseteq_l.
Qed.

Lemma renamed_le_removed : size (numbers added ∩ numbers removed) ≤ size removed.
Proof.
  rewrite <-(size_numbers removed) by done. apply subseteq_size.
  apply intersection_subseteq_r.
Qed.

Lemma compare_size :
  size (diff (compare c added removed)) + size (numbers added ∩ numbers removed)
    = size added + size removed.
Proof.
  rewrite <-size_dom, compare_dom, size_union_alt, size_difference_alt.
  rewrite !size_numbers by done.
  pose proof renamed_le_removed as Hle.
  rewrite (intersection_comm_L (numbers removed)). lia.
Qed.

(** A set is iterated in no particular order: whatever order the two
    loops take [removed] and [added] in, the outcome is the same. *)
Lemma compare_any_order lr la :
  lr ≡ₚ elements removed → la ≡ₚ elements added →
  compare_in_order c (size added) (size removed) lr la = compare c added removed.
Proof.
  intros Hlr Hla. unfold compare, compare_in_order.
  pose proof (functional_NoDup _ Hadded) as Hna.
  pose proof (functional_NoDup _ Hremoved) as Hnr.
  assert (NoDup la.*1) as Hna' by by rewrite Hla.
  assert (NoDup lr.*1) as Hnr' by by rewrite Hlr.
  assert (removed_loop c lr = removed_loop c (elements removed)) as ->.
  { apply map_eq. intros k. unfold removed_loop.
    rewrite !removed_loop_from by done.
    by rewrite (list_to_map_proper _ _ Hnr' Hlr). }
  set (t0 := {| n_added := _; n_removed := _; n_renamed := _; diff := _ |}).
  destruct (added_loop t0 la Hna') as (Hd1 & Hr1 & Ha1 & Hm1).
  destruct (added_loop t0 (elements added) Hna) as (Hd2 & Hr2 & Ha2 & Hm2).
  assert (hits (diff t0) la = hits (diff t0) (elements added)) as Hh.
  { unfold hits. by rewrite Hla. }
  apply tally_eq; [congruence..|].
  apply map_eq. intros k.
  by rewrite Hd1, Hd2, (list_to_map_proper _ _ Hna' Hla).
Qed.

End compare.

(** ** The sorted items of [diff] *)

Global Instance num_lt_trans : Transitive num_lt.
Proof. unfold num_lt. intros a b d. lia. Qed.

Lemma item_ltb_num a b : a.1 ≠ b.1 → item_ltb a b = (a.1 <? b.1)%Z.
Proof. intros Hne. unfold item_ltb. by rewrite (proj2 (Z.eqb_neq _ _) Hne). Qed.

Lemma sorted_by_num (l : list (Z * (string * string))) :
  NoDup l.*1 → StronglySorted num_lt (Py.sorted item_ltb l).
Proof.
  induction l as [|x l IH]; intros Hl; [constructor|].
  apply NoDup_cons in Hl as [Hx Hl]. unfold Py.sorted. simpl.
  apply insert_StronglySorted; [apply _| |by apply IH].
  apply Forall_forall. intros y Hy.
  assert (y.1 ≠ x.1) as Hne.
  { intros Heq. apply Hx. rewrite <-Heq. apply list_elem_of_fmap_2.
    by rewrite <-(sorted_Permutation item_ltb l). }
  rewrite item_ltb_num by done. unfold num_lt.
  destruct (Z.ltb_spec y.1 x.1); lia.
Qed.

Lemma sorted_items_Permutation d : sorted_items d ≡ₚ map_to_list d.
Proof. apply sorted_Permutation. Qed.

Lemma elem_of_sorted_items d k e : (k, e) ∈ sorted_items d ↔ d !! k = Some e.
Proof. by rewrite sorted_items_Permutation, elem_of_map_to_list. Qed.

Lemma sorted_items_sorted d : StronglySorted num_lt (sorted_items d).
Proof. apply sorted_by_num, NoDup_fst_map_to_list. Qed.

Lemma sorted_items_ascending d : StronglySorted Z.lt (sorted_items d).*1.
Proof. eapply StronglySorted_fmap; [|apply sorted_items_sorted]. done. Qed.


(** [diff.items()] comes in insertion order; whatever that order is, the
    sorted list is the same. *)
Lemma sorted_items_any_order d l :
  l ≡ₚ map_to_list d → Py.sorted item_ltb l = sorted_items d.
Proof.
  intros Hl. apply (StronglySorted_unique_strong num_lt).
  - unfold num_lt. intros x1 x2 _ _. lia.
  - apply sorted_by_num. rewrite Hl. apply NoDup_fst_map_to_list.
  - apply sorted_items_sorted.
  - by rewrite sorted_Permutation, sorted_items_Permutation.
Qed.

Lemma length_diff_lines c d : length (diff_lines c d) = size d.
Proof.
  unfold diff_lines. rewrite length_fmap, sorted_items_Permutation.
  apply length_map_to_list.
Qed.

(** ** Added and removed sets *)

(** C6: [added] holds exactly the (number, name) pairs of the current
    table's mapping that the previous table's mapping lacks, [removed] the
    pairs of the previous one that the current one lacks, pairs compared as
    wholes; comparing read/write with read/write/open reports [+1], the
    entry [2 (0x2) open] marked added, and nothing removed or renamed. *)
Theorem added_removed_are_set_differences :
  (∀ prev cur k v,
     ((k, v) ∈ added_set prev cur ↔ (k, v) ∈ Py.items cur ∧ (k, v) ∉ Py.items prev) ∧
     ((k, v) ∈ removed_set prev cur ↔ (k, v) ∈ Py.items prev ∧ (k, v) ∉ Py.items cur) ∧
     ((k, v) ∈ Py.items cur ↔ cur !! k = Some v)) ∧
  (let prev := syscalls_of t_read_write in
   let cur := syscalls_of t_read_write_open in
   let t := compare (palette false) (added_set prev cur) (removed_set prev cur) in
   elements (added_set prev cur) = [(2%Z, "open")] ∧
   elements (removed_set prev cur) = [] ∧
   n_added t = 1%Z ∧ n_removed t = 0%Z ∧ n_renamed t = 0%Z ∧
   map_to_list (diff t) = [(2%Z, ("+", "open"))] ∧
   diff_report (palette false) (Some prev) cur =
     " (+1)" +:+ Py.nl +:+ "       + 2 (0x2) open" +:+ Py.nl) ∧
  stdout (main (files_of [("a", t_read_write); ("b", t_read_write_open)])
            false ["prog"; "b"; "a"]) =
    "v5.10: 2 syscalls" +:+ Py.nl +:+
    "v5.11: 3 syscalls (+1)" +:+ Py.nl +:+
    "       + 2 (0x2) open" +:+ Py.nl.
Proof.
  split; [|split; [vm_compute; by repeat split|by vm_compute]].
  intros prev cur k v. unfold added_set, removed_set.
  rewrite !elem_of_difference. split; [done|]. split; [done|].
  apply elem_of_items.
Qed.

(** ** Renames *)

(** C2: a number that occurs in both [removed] (under [old]) and [added]
    (under [new]) ends as one entry of [diff], the rename [old -> new]; its
    line is among the diff lines and is the only one for that number; it is
    counted once in the renamed count and taken off both the added and the
    removed count.  Comparing {(5, foo)} with {(5, bar)} reports
    [1 renamed], the line [5 (0x5) foo -> bar], and nothing added or
    removed. *)
Theorem rename_replaces_add_and_remove :
  (∀ c prev cur num old new,
     (num, old) ∈ removed_set prev cur →
     (num, new) ∈ added_set prev cur →
     let added := added_set prev cur in
     let removed := removed_set prev cur in
     let t := compare c added removed in
     let line := (num, (RENAME c, old +:+ " -> " +:+ new)) in
     diff t !! num = Some line.2 ∧
     diff_line c line ∈ diff_lines c (diff t) ∧
     (∀ e, (num, e) ∈ sorted_items (diff t) → e = line.2) ∧
     num ∈ numbers added ∩ numbers removed ∧
     n_renamed t = Z.of_nat (size (numbers added ∩ numbers removed)) ∧
     n_added t = (Z.of_nat (size added) - n_renamed t)%Z ∧
     n_removed t = (Z.of_nat (size removed) - n_renamed t)%Z) ∧
  (let prev := syscalls_of t_foo in
   let cur := syscalls_of t_bar in
   let t := compare (palette false) (added_set prev cur) (removed_set prev cur) in
   n_added t = 0%Z ∧ n_removed t = 0%Z ∧ n_renamed t = 1%Z ∧
   diff_report (palette false) (Some prev) cur =
     " (1 renamed)" +:+ Py.nl +:+ "       R 5 (0x5) foo -> bar" +:+ Py.nl) ∧
  stdout (main (files_of [("a", t_foo); ("b", t_bar)]) false ["prog"; "a"; "b"]) =
    "v5.10: 1 syscalls" +:+ Py.nl +:+
    "v5.11: 1 syscalls (1 renamed)" +:+ Py.nl +:+
    "       R 5 (0x5) foo -> bar" +:+ Py.nl.
Proof.
  split; [|split; [vm_compute; by repeat split|by vm_compute]].
  intros c prev cur num old new Hold Hnew added removed t line.
  pose proof (added_set_functional prev cur) as Ha.
  pose proof (removed_set_functional prev cur) as Hr.
  assert (diff t !! num = Some line.2) as Hd.
  { unfold t. rewrite compare_lookup by done.
    apply (value_in_Some _ _ _ Ha) in Hnew.
    apply (value_in_Some _ _ _ Hr) in Hold.
    fold added removed in Hnew, Hold. by rewrite Hnew, Hold. }
  destruct (compare_counts c added removed Ha Hr) as (Hn & Hna & Hnr).
  fold t in Hn, Hna, Hnr.
  split; [done|]. split.
  { apply list_elem_of_fmap_2. by apply elem_of_sorted_items. }
  split.
  { intros e He%elem_of_sorted_items. congruence. }
  split.
  { apply elem_of_intersection. rewrite !elem_of_numbers. eauto. }
  rewrite Hn. done.
Qed.

(** An instance: 5 is renamed from foo to bar. *)
Lemma rename_foo_bar :
  let prev := syscalls_of t_foo in
  let cur := syscalls_of t_bar in
  diff (compare (palette false) (added_set prev cur) (removed_set prev cur)) !! 5%Z
    = Some ("R", "foo -> bar").
Proof.
  intros prev cur.
  refine (proj1 (proj1 rename_replaces_add_and_remove
            (palette false) prev cur 5%Z "foo" "bar" _ _)).
  - by vm_compute.
  - by vm_compute.
Defined.

(** ** Order of the diff lines *)

Lemma sorted_items_lookup_lt d i j a b :
  i < j → sorted_items d !! i = Some a → sorted_items d !! j = Some b →
  (a.1 < b.1)%Z.
Proof.
  intros Hij Hi Hj. pose proof (sorted_items_sorted d) as Hs.
  rewrite <-(take_drop j (sorted_items d)) in Hs.
  apply (StronglySorted_app_1_elem_of _ _ _ a b Hs).
  - apply list_elem_of_lookup. exists i. by rewrite lookup_take_lt.
  - apply list_elem_of_lookup. exists 0. by rewrite lookup_drop, Nat.add_0_r.
Qed.

(** C9: the lines printed for a pair of tables are the lines of the items
    of [diff] taken in strictly ascending order of syscall number, each
    item of [diff] once, whatever the order of the records in the two
    tables.  Each line is seven spaces, the symbol, the number in decimal,
    the number in hexadecimal in parentheses, the name and the reset code;
    every entry of [diff] has its line, there are as many lines as
    entries, and of two printed lines the earlier one is the line of the
    smaller number.  When the numbers of a table are distinct, reordering
    its records changes nothing of what is printed. *)
Theorem diff_lines_ascend (c : colors) (previous current : Table) :
  let prev := syscalls_of previous in
  let cur := syscalls_of current in
  let t := compare c (added_set prev cur) (removed_set prev cur) in
  let line := λ (num : Z) (e : string * string),
    "       " +:+ e.1 +:+ " " +:+ Py.str num +:+ " (" +:+ Py.format_hex num
      +:+ ") " +:+ e.2 +:+ RESET c +:+ Py.nl in
  diff_report c (Some prev) cur =
    (if decide (added_set prev cur = ∅ ∧ removed_set prev cur = ∅) then Py.nl
     else summary c t +:+ String.concat "" (diff_line c <$> sorted_items (diff t))) ∧
  StronglySorted Z.lt (sorted_items (diff t)).*1 ∧
  (∀ num e, (num, e) ∈ sorted_items (diff t) ↔ diff t !! num = Some e) ∧
  (∀ reordered,
     NoDup (number <$> syscalls current) →
     syscalls current ≡ₚ syscalls reordered →
     diff_report c (Some prev) (syscalls_of reordered) = diff_report c (Some prev) cur ∧
     diff_report c (Some (syscalls_of reordered)) prev = diff_report c (Some cur) prev) ∧
  (∀ num e, diff t !! num = Some e → line num e ∈ diff_lines c (diff t)) ∧
  length (diff_lines c (diff t)) = size (diff t) ∧
  (∀ i j li lj,
     i < j →
     diff_lines c (diff t) !! i = Some li →
     diff_lines c (diff t) !! j = Some lj →
     ∃ ni nj ei ej,
       (ni < nj)%Z ∧ diff t !! ni = Some ei ∧ diff t !! nj = Some ej ∧
       li = line ni ei ∧ lj = line nj ej).
Proof.
  intros prev cur t line.
  assert (∀ e, diff_line c e = line e.1 e.2) as Hline by done.
  split; [done|]. split; [|split; [|split; [|split; [|split]]]].
  - apply sorted_items_ascending.
  - intros. apply elem_of_sorted_items.
  - intros reordered Hnd Hp.
    by rewrite <-(syscalls_of_Permutation current reordered Hnd Hp).
  - intros num e He%elem_of_sorted_items. unfold diff_lines.
    apply list_elem_of_fmap. exists (num, e). by rewrite Hline.
  - apply length_diff_lines.
  - unfold diff_lines. intros i j li lj Hij Hi Hj.
    rewrite list_lookup_fmap in Hi, Hj.
    destruct (sorted_items (diff t) !! i) as [[ni ei]|] eqn:Ei; [|done].
    destruct (sorted_items (diff t) !! j) as [[nj ej]|] eqn:Ej; [|done].
    injection Hi as <-. injection Hj as <-.
    exists ni, nj, ei, ej.
    split; [exact (sorted_items_lookup_lt _ _ _ _ _ Hij Ei Ej)|].
    split; [by apply elem_of_sorted_items, list_elem_of_lookup; exists i|].
    split; [by apply elem_of_sorted_items, list_elem_of_lookup; exists j|].
    by rewrite !Hline.
Qed.

(** The records of the current table in descending order of number, with
    the numbers 9, 10 and 100: the lines come out in ascending numeric
    order, the removed number 5 first. *)
Lemma diff_lines_of_reordered_table :
  diff_report (palette false) (Some (syscalls_of t_foo))
      (syscalls_of (mk "v5.11" "x86" [(100, "ioctl"); (10, "mprotect"); (9, "mmap")]%Z))
    = " (+3/-1)" +:+ Py.nl +:+
      "       - 5 (0x5) foo" +:+ Py.nl +:+
      "       + 9 (0x9) mmap" +:+ Py.nl +:+
      "       + 10 (0xa) mprotect" +:+ Py.nl +:+
      "       + 100 (0x64) ioctl" +:+ Py.nl.
Proof.
  rewrite (proj1 (proj1 (proj2 (proj2 (proj2
    (diff_lines_ascend (palette false) t_foo
       (mk "v5.11" "x86" [(9, "mmap"); (10, "mprotect"); (100, "ioctl")]%Z)))))
    (mk "v5.11" "x86" [(100, "ioctl"); (10, "mprotect"); (9, "mmap")]%Z)
    ltac:(apply (bool_decide_unpack _); by vm_compute)
    ltac:(apply (bool_decide_unpack _); by vm_compute))).
  by vm_compute.
Defined.

(** ** The counters *)


(** ** Escape characters *)

Ltac esc_literal := by apply (bool_decide_unpack _); vm_compute.

Lemma list_ascii_app a b :
  list_ascii_of_string (a +:+ b) = list_ascii_of_string a ++ list_ascii_of_string b.
Proof.
  induction a as [|ch a IH]; [done|].
  change (ch :: list_ascii_of_string (a +:+ b)
          = ch :: (list_ascii_of_string a ++ list_ascii_of_string b)).
  by rewrite IH.
Qed.

Lemma esc_free_app a b : esc_free (a +:+ b) ↔ esc_free a ∧ esc_free b.
Proof. unfold esc_free. by rewrite list_ascii_app, not_elem_of_app. Qed.

Lemma esc_free_app_2 a b : esc_free a → esc_free b → esc_free (a +:+ b).
Proof. intros. by apply esc_free_app. Qed.

Lemma esc_free_String ch s : ch ≠ Py.ESC → esc_free s → esc_free (String ch s).
Proof. unfold esc_free. simpl. rewrite not_elem_of_cons. naive_solver. Qed.

Lemma esc_free_concat l : Forall esc_free l → esc_free (String.concat "" l).
Proof.
  induction 1 as [|x l Hx _ IH]; [esc_literal|].
  rewrite concat_cons_s. by apply esc_free_app_2.
Qed.

Lemma esc_free_spaces n : esc_free (Py.spaces n).
Proof. induction n; [esc_literal|]. by apply esc_free_String. Qed.

Lemma esc_free_pretty_N_go x s : esc_free s → esc_free (pretty_N_go x s).
Proof.
  revert s. induction (N.lt_wf_0 x) as [x _ IH]; intros s Hs.
  destruct (decide (0 < x)%N) as [Hx|Hx].
  - rewrite pretty_N_go_step by done. apply IH; [by apply N.div_lt|].
    apply esc_free_String; [|done].
    unfold pretty_N_char. by repeat case_match.
  - by replace x with 0%N by lia.
Qed.

Lemma esc_free_pretty_N (x : N) : esc_free (pretty x).
Proof.
  unfold pretty, pretty_N. case_decide; [esc_literal|].
  apply esc_free_pretty_N_go. esc_literal.
Qed.

Lemma esc_free_str n : esc_free (Py.str n).
Proof.
  unfold Py.str, pretty, pretty_Z. destruct n as [|p|p].
  - esc_literal.
  - apply esc_free_pretty_N.
  - apply esc_free_app_2; [esc_literal|apply esc_free_pretty_N].
Qed.

Lemma esc_free_hex_digits n :
  ∀ p rest, Pos.size_nat p ≤ n → esc_free rest → esc_free (HexString.Raw.of_pos p rest).
Proof.
  induction n as [n IH] using lt_wf_ind. intros p rest Hn Hrest.
  do 4 try destruct p as [p|p|]; cbn [HexString.Raw.of_pos];
    try (by apply esc_free_String);
    (apply (IH (Pos.size_nat p)); [simpl in Hn; lia|done|by apply esc_free_String]).
Qed.

Lemma esc_free_format_hex n : esc_free (Py.format_hex n).
Proof.
  assert (∀ p, esc_free (HexString.of_pos p)) as Hp.
  { intros p. unfold HexString.of_pos. do 2 (apply esc_free_String; [done|]).
    eapply esc_free_hex_digits; [done|esc_literal]. }
  unfold Py.format_hex, HexString.of_Z. destruct n as [|p|p]; [esc_literal|done|].
  by apply esc_free_String.
Qed.

Lemma clean_syscalls_of t : clean_table t → clean_dict (syscalls_of t).
Proof.
  intros [_ Hn] k v. rewrite syscalls_of_lookup.
  destruct (last _) as [s|] eqn:Hlast; [|done]. intros [= <-].
  apply last_Some_elem_of, list_elem_of_filter in Hlast as [_ Hs].
  rewrite Forall_forall in Hn. by apply Hn.
Qed.

Section clean.

Context (c : colors) (Hc : clean_colors c).

Local Ltac pieces :=
  repeat (apply esc_free_app_2);
  try apply esc_free_str; try apply esc_free_format_hex;
  try apply esc_free_spaces; try apply Hc; try done; try esc_literal.

Lemma esc_free_count_line tag d : esc_free tag → esc_free (count_line tag d).
Proof. intros Ht. unfold count_line, Py.ljust. pieces. Qed.

Lemma esc_free_summary t : esc_free (summary c t).
Proof.
  unfold summary, PLUS, MINUS. repeat (apply esc_free_app_2).
  all: repeat case_decide; pieces.
Qed.

Lemma esc_free_diff_line e :
  esc_free e.2.1 → esc_free e.2.2 → esc_free (diff_line c e).
Proof. intros H1 H2. unfold diff_line. pieces. Qed.

Lemma clean_compare prev cur k e :
  clean_dict prev → clean_dict cur →
  diff (compare c (added_set prev cur) (removed_set prev cur)) !! k = Some e →
  esc_free e.1 ∧ esc_free e.2.
Proof.
  intros Hprev Hcur.
  pose proof (added_set_functional prev cur) as Ha.
  pose proof (removed_set_functional prev cur) as Hr.
  rewrite compare_lookup by done.
  assert (∀ v, value_in (added_set prev cur) k = Some v → esc_free v) as Hnew.
  { intros v [Hv _]%value_in_Some%elem_of_added_set; [|done]. by eapply Hcur. }
  assert (∀ v, value_in (removed_set prev cur) k = Some v → esc_free v) as Hold.
  { intros v [Hv _]%value_in_Some%elem_of_removed_set; [|done]. by eapply Hprev. }
  destruct (value_in (added_set prev cur) k) as [new|],
    (value_in (removed_set prev cur) k) as [old|];
    simpl; intros [= <-]; simpl; unfold RENAME, PLUS, MINUS.
  - split; pieces; auto.
  - split; pieces; auto.
  - split; pieces; auto.
Qed.

Lemma esc_free_diff_report prev cur :
  (∀ d, prev = Some d → clean_dict d) → clean_dict cur →
  esc_free (diff_report c prev cur).
Proof.
  intros Hprev Hcur. unfold diff_report.
  destruct prev as [d|]; [|esc_literal].
  case_decide; [esc_literal|].
  apply esc_free_app_2; [apply esc_free_summary|].
  apply esc_free_concat, Forall_fmap, Forall_forall.
  intros [k e] He%elem_of_sorted_items.
  eapply clean_compare in He as [H1 H2]; eauto.
  by apply esc_free_diff_line.
Qed.

Lemma esc_free_loop arch prev tables :
  (∀ d, prev = Some d → clean_dict d) → Forall clean_table tables →
  esc_free (stdout (loop c arch prev tables)).
Proof.
  intros Hprev Ht. revert arch prev Hprev.
  induction Ht as [|t tables Hclean _ IH]; intros arch prev Hprev; [esc_literal|].
  assert (esc_free (count_line (version t) (syscalls_of t)
            +:+ diff_report c prev (syscalls_of t)
            +:+ stdout (loop c (Some (arch_bits_abi t)) (Some (syscalls_of t)) tables)))
    as Hgo.
  { apply esc_free_app_2; [apply esc_free_count_line, Hclean|].
    apply esc_free_app_2.
    - apply esc_free_diff_report; [done|by apply clean_syscalls_of].
    - apply IH. intros d [= <-]. by apply clean_syscalls_of. }
  destruct arch as [x|]; [|by rewrite loop_cons_none].
  destruct (decide (arch_bits_abi t = x)) as [Heq|Hne].
  - rewrite loop_cons_same by done. by rewrite <-Heq.
  - rewrite loop_cons_differ by done. esc_literal.
Qed.

End clean.

Lemma load_files_elem fs fnames loaded t :
  load_files fs fnames = Some loaded → t ∈ loaded →
  ∃ f, f ∈ fnames ∧ json_load fs f = Some t.
Proof.
  revert loaded. induction fnames as [|f fnames IH]; intros loaded; simpl.
  { intros [= <-] []%elem_of_nil. }
  destruct (json_load fs f) as [t'|] eqn:Hf; [|done].
  destruct (load_files fs fnames) as [ts|]; [|done]. simpl.
  intros [= <-] [->|Ht]%elem_of_cons.
  - exists f. split; [left|done].
  - destruct (IH ts eq_refl Ht) as (f' & Hf' & Hl). exists f'. split; [by right|done].
Qed.

Lemma load_tables_elem fs patterns loaded t :
  load_tables fs patterns = Some loaded → t ∈ loaded →
  ∃ f, f ∈ concat (glob fs <$> patterns) ∧ json_load fs f = Some t.
Proof.
  revert loaded. induction patterns as [|p patterns IH]; intros loaded; simpl.
  { intros [= <-] []%elem_of_nil. }
  destruct (load_files fs (glob fs p)) as [ts|] eqn:Hp; [|done].
  destruct (load_tables fs patterns) as [ts'|]; [|done]. simpl.
  intros [= <-] [Ht|Ht]%elem_of_app.
  - destruct (load_files_elem _ _ _ _ Hp Ht) as (f & Hf & Hl).
    exists f. split; [|done]. apply elem_of_app. by left.
  - destruct (IH ts' eq_refl Ht) as (f & Hf & Hl).
    exists f. split; [|done]. apply elem_of_app. by right.
Qed.

(** Without a terminal the colour codes are empty, and still the name of a
    syscall that holds an escape sequence is printed as it is. *)
Lemma escape_in_a_name_is_printed :
  palette false = {| RED := ""; GREEN := ""; BLUE := ""; RESET := "" |} ∧
  stdout (main (files_of [("a", t_foo); ("b", t_escape)]) false ["prog"; "a"; "b"]) =
    "v5.10: 1 syscalls" +:+ Py.nl +:+
    "v5.11: 1 syscalls (1 renamed)" +:+ Py.nl +:+
    "       R 5 (0x5) foo -> " +:+ String Py.ESC "[91mbar" +:+ Py.nl ∧
  Py.ESC ∈ list_ascii_of_string
    (stdout (main (files_of [("a", t_foo); ("b", t_escape)]) false ["prog"; "a"; "b"])).
Proof.
  split; [done|]. split; [by vm_compute|].
  apply (bool_decide_unpack _). by vm_compute.
Qed.

Lemma esc_free_arch_bits_abi t : clean_arch t → esc_free (arch_bits_abi t).
Proof.
  intros [Ha Hb]. unfold arch_bits_abi.
  repeat apply esc_free_app_2; try done; try apply esc_free_str; esc_literal.
Qed.

Lemma esc_free_incompatible x y :
  esc_free x → esc_free y → esc_free (incompatible x y).
Proof.
  intros Hx Hy. unfold incompatible.
  repeat apply esc_free_app_2; try done; esc_literal.
Qed.

Lemma esc_free_loop_exit c arch prev tables msg :
  (∀ x, arch = Some x → esc_free x) → Forall clean_arch tables →
  exit (loop c arch prev tables) = SysExit msg → esc_free msg.
Proof.
  intros Harch Ht. revert arch prev Harch.
  induction Ht as [|t tables Hclean _ IH]; intros arch prev Harch; [done|].
  pose proof (esc_free_arch_bits_abi t Hclean) as Hthis.
  destruct arch as [x|].
  - destruct (decide (arch_bits_abi t = x)) as [Heq|Hne].
    + rewrite loop_cons_same by done. cbn [exit]. apply IH.
      intros ? [= <-]. by rewrite <-Heq.
    + rewrite loop_cons_differ by done. cbn [exit]. intros [= <-].
      apply esc_free_incompatible; auto.
  - rewrite loop_cons_none. cbn [exit]. apply IH. by intros ? [= <-].
Qed.

(** A tag that [tag_to_tuple] accepts holds no escape character: it is
    [latest], or a [v] and parts that [int] accepts, which are made of
    white space, a sign, digits and underscores. *)
Lemma int_digits_esc_free acc st s n :
  Py.int_digits acc st s = Some n → esc_free s.
Proof.
  revert acc st. induction s as [|ch s IH]; intros acc st; [intros _; esc_literal|].
  destruct (decide (ch = Py.ESC)) as [->|Hch].
  { by destruct st. }
  cbn [Py.int_digits]. intros Hs. apply esc_free_String; [done|].
  destruct (Py.digit_val ch); [by eapply IH|].
  destruct st; try done. destruct (Ascii.eqb ch "_"); [by eapply IH|done].
Qed.

Lemma lstrip_esc_free s : esc_free (Py.lstrip s) → esc_free s.
Proof.
  induction s as [|ch s IH]; [done|]. cbn [Py.lstrip].
  destruct (Py.is_space ch) eqn:Hsp; [|done].
  intros Hs. apply esc_free_String; [|by apply IH].
  intros ->. by vm_compute in Hsp.
Qed.

Lemma rstrip_esc_free s : esc_free (Py.rstrip s) → esc_free s.
Proof.
  induction s as [|ch s IH]; [done|]. cbn [Py.rstrip].
  destruct (Py.rstrip s) as [|ch' r].
  - destruct (Py.is_space ch) eqn:Hsp; intros Hs.
    + apply esc_free_String; [|by apply IH].
      intros ->. by vm_compute in Hsp.
    + apply esc_free_String; [|apply IH; esc_literal].
      intros ->. apply Hs. by left.
  - intros Hs. apply esc_free_String.
    + intros ->. apply Hs. by left.
    + apply IH. intros Hin. apply Hs. by right.
Qed.

Lemma int_esc_free s n : Py.int s = Some n → esc_free s.
Proof.
  unfold Py.int, Py.strip. intros Hs.
  apply lstrip_esc_free, rstrip_esc_free.
  destruct (Py.rstrip (Py.lstrip s)) as [|ch r]; [done|].
  destruct (Ascii.eqb_spec ch "-") as [->|_].
  { destruct (Py.int_digits 0 Py.AtStart r) eqn:Hr; [|done].
    apply esc_free_String; [done|by eapply int_digits_esc_free]. }
  destruct (Ascii.eqb_spec ch "+") as [->|_].
  { apply esc_free_String; [done|by eapply int_digits_esc_free]. }
  by eapply int_digits_esc_free.
Qed.

Lemma split_esc_free s : Forall esc_free (Py.split "." s) → esc_free s.
Proof.
  induction s as [|ch s IH]; [intros _; esc_literal|]. cbn [Py.split].
  destruct (Ascii.eqb_spec ch ".") as [->|_].
  { intros [_ Hs]%Forall_cons. apply esc_free_String; [done|by apply IH]. }
  destruct (Py.split "." s) as [|w ws].
  - intros [Hc _]%Forall_cons. apply esc_free_String; [|by apply IH].
    intros ->. apply Hc. by left.
  - intros [Hc Hws]%Forall_cons. apply esc_free_String.
    + intros ->. apply Hc. by left.
    + apply IH. constructor; [|done]. intros Hin. apply Hc. by right.
Qed.

Lemma parses_esc_free tag : parses tag → esc_free tag.
Proof.
  intros [k [[-> _]|(rest & ns & -> & _ & Hns & _)]%tag_to_tuple_inr];
    [esc_literal|].
  apply esc_free_String; [done|]. apply split_esc_free.
  apply mapM_Some in Hns. revert Hns. generalize (Py.split "." rest). intros l.
  induction 1 as [|s n l ns' Hs _ IH]; constructor; [by eapply int_esc_free|done].
Qed.

(** C8, as the code has it: without a terminal the four colour codes are
    empty; the run then writes no escape character of its own.  When the
    syscall names of the loaded tables hold none, standard output holds
    none (the version tags need no condition, since a tag with an escape
    character does not parse and the run ends before the first line); when
    the architecture and ABI names and the program name hold none, the
    message of [sys.exit] holds none. *)
Theorem no_escape_without_terminal fs argv :
  (RED (palette false) = "" ∧ GREEN (palette false) = "" ∧
   BLUE (palette false) = "" ∧ RESET (palette false) = "") ∧
  ((∀ f t, f ∈ resolved fs argv → json_load fs f = Some t → clean_names t) →
   esc_free (stdout (main fs false argv))) ∧
  ((∀ f t, f ∈ resolved fs argv → json_load fs f = Some t → clean_arch t) →
   (∀ prog, head argv = Some prog → esc_free prog) →
   ∀ msg, stderr (exit (main fs false argv)) = Some msg → esc_free msg).
Proof.
  split; [done|]. split.
  - intros Hclean.
    unfold main. case_match; [destruct argv; esc_literal|].
    destruct (load_tables fs (tail argv)) as [loaded|] eqn:Hload; [|esc_literal].
    destruct (sort_tables loaded) as [e|tables] eqn:Hsort; [esc_literal|].
    case_decide; [esc_literal|].
    apply esc_free_loop; [by repeat split; esc_literal|done|].
    apply sort_tables_inr in Hsort as (Hparse & Hperm & _).
    rewrite Hperm. apply Forall_forall. intros t Ht. split.
    + apply parses_esc_free. by apply (proj1 (Forall_forall _ _) Hparse).
    + destruct (load_tables_elem _ _ _ _ Hload Ht) as (f & Hf & Hl).
      by eapply Hclean.
  - intros Hclean Hprog msg.
    unfold main. case_match.
    { destruct argv as [|prog argv]; [done|]. simpl. intros [= <-].
      unfold usage. repeat apply esc_free_app_2; [esc_literal|by apply Hprog|esc_literal]. }
    destruct (load_tables fs (tail argv)) as [loaded|] eqn:Hload; [|done].
    destruct (sort_tables loaded) as [e|tables] eqn:Hsort; [done|].
    case_decide; [simpl; intros [= <-]; esc_literal|].
    destruct (exit (loop (palette false) None None tables)) as [|m|] eqn:Hexit;
      try done.
    simpl. intros [= <-]. eapply esc_free_loop_exit; [| |exact Hexit]; [done|].
    apply sort_tables_inr in Hsort as (_ & Hperm & _).
    rewrite Hperm. apply Forall_forall. intros t Ht.
    destruct (load_tables_elem _ _ _ _ Hload Ht) as (f & Hf & Hl). by eapply Hclean.
Qed.

(** A run without a terminal that prints an addition, a removal and a
    rename: the text, which holds no escape character. *)
Lemma no_escape_in_plain_report :
  let fs := files_of
    [("a", mk "v5.10" "x86" [(0, "read"); (1, "write"); (5, "foo")]%Z);
     ("b", mk "v5.11" "x86" [(0, "read"); (2, "open"); (5, "bar")]%Z)] in
  stdout (main fs false ["prog"; "a"; "b"]) =
    "v5.10: 3 syscalls" +:+ Py.nl +:+
    "v5.11: 3 syscalls (+1/-1, 1 renamed)" +:+ Py.nl +:+
    "       - 1 (0x1) write" +:+ Py.nl +:+
    "       + 2 (0x2) open" +:+ Py.nl +:+
    "       R 5 (0x5) foo -> bar" +:+ Py.nl ∧
  esc_free (stdout (main fs false ["prog"; "a"; "b"])).
Proof.
  intros fs. split; [by vm_compute|].
  refine (proj1 (proj2 (no_escape_without_terminal fs ["prog"; "a"; "b"])) _).
  intros f t Hf. revert Hf. unfold resolved. simpl. rewrite !elem_of_cons, elem_of_nil.
  intros [->|[->|[]]] [= <-]; unfold clean_names; simpl; repeat constructor; esc_literal.
Defined.

(** * Further properties of the script *)

(** ** What a comparison holds for each number *)

Lemma value_in_added prev cur k :
  value_in (added_set prev cur) k =
    match cur !! k with
    | Some n => if decide (prev !! k = Some n) then None else Some n
    | None => None
    end.
Proof.
  apply option_eq. intros v.
  rewrite value_in_Some, elem_of_added_set by apply added_set_functional.
  destruct (cur !! k) as [n|]; [|by split; [intros [? _]|]].
  case_decide as Hp.
  - split; [intros [[= ->] ?]|]; done.
  - split.
    + by intros [[= ->] _].
    + intros [= ->]. done.
Qed.

Lemma value_in_removed prev cur k :
  value_in (removed_set prev cur) k =
    match prev !! k with
    | Some o => if decide (cur !! k = Some o) then None else Some o
    | None => None
    end.
Proof.
  apply option_eq. intros v.
  rewrite value_in_Some, elem_of_removed_set by apply removed_set_functional.
  destruct (prev !! k) as [o|]; [|by split; [intros [? _]|]].
  case_decide as Hp.
  - split; [intros [[= ->] ?]|]; done.
  - split.
    + by intros [[= ->] _].
    + intros [= ->]. done.
Qed.

Lemma compare_classify c prev cur k :
  diff (compare c (added_set prev cur) (removed_set prev cur)) !! k =
    classify c (prev !! k) (cur !! k).
Proof.
  rewrite compare_lookup
    by (apply added_set_functional || apply removed_set_functional).
  rewrite value_in_added, value_in_removed. unfold classify, entered.
  destruct (prev !! k) as [o|], (cur !! k) as [n|]; simpl; try done.
  destruct (decide (o = n)) as [->|Hne].
  - by rewrite !decide_True.
  - rewrite !decide_False by congruence. done.
Qed.

Lemma differences_empty_iff (prev cur : gmap Z string) :
  added_set prev cur = ∅ ∧ removed_set prev cur = ∅ ↔ prev = cur.
Proof.
  split.
  - intros [Ha Hr]. apply map_eq. intros k. apply option_eq. intros v. split.
    + intros Hp. destruct (decide (cur !! k = Some v)) as [|Hne]; [done|].
      assert ((k, v) ∈ removed_set prev cur) as Hin by by apply elem_of_removed_set.
      rewrite Hr in Hin. by apply elem_of_empty in Hin.
    + intros Hc. destruct (decide (prev !! k = Some v)) as [|Hne]; [done|].
      assert ((k, v) ∈ added_set prev cur) as Hin by by apply elem_of_added_set.
      rewrite Ha in Hin. by apply elem_of_empty in Hin.
  - intros ->. unfold added_set, removed_set. by rewrite difference_diag_L.
Qed.

(** X1: for each syscall number the comparison holds exactly what the two
    tables say about it: nothing when the number is in neither table or has
    the same name in both, a removal when only the previous table has it, an
    addition when only the current table has it, and a rename when both
    have it under different names.  So the numbers with a diff line are the
    numbers on which the two mappings disagree, and when the mappings
    differ at all there is at least one diff line and one count that is not
    zero. *)
Theorem diff_classifies_each_number (c : colors) (prev cur : gmap Z string) :
  let t := compare c (added_set prev cur) (removed_set prev cur) in
  (∀ k, diff t !! k = classify c (prev !! k) (cur !! k)) ∧
  (∀ k, is_Some (diff t !! k) ↔ prev !! k ≠ cur !! k) ∧
  (∀ k e, (k, e) ∈ sorted_items (diff t) ↔ classify c (prev !! k) (cur !! k) = Some e) ∧
  (prev ≠ cur →
     0 < length (diff_lines c (diff t)) ∧
     (0 < n_added t + n_removed t + n_renamed t)%Z).
Proof.
  intros t.
  assert (∀ k, diff t !! k = classify c (prev !! k) (cur !! k)) as Hk
    by apply compare_classify.
  split; [done|]. split; [|split].
  - intros k. rewrite Hk. unfold classify.
    destruct (prev !! k) as [o|], (cur !! k) as [n|]; simpl.
    + case_decide as Hon.
      * subst. split; [by intros [? ?]|done].
      * split; [intros _; congruence|by eexists].
    + split; [done|by eexists].
    + split; [done|by eexists].
    + split; [by intros [? ?]|done].
  - intros k e. by rewrite elem_of_sorted_items, Hk.
  - intros Hne.
    assert (0 < size (diff t)) as Hpos.
    { destruct (decide (size (diff t) = 0)) as [Hz|]; [|lia].
      apply map_size_empty_iff in Hz. destruct Hne. apply map_eq. intros k.
      specialize (Hk k). rewrite Hz, lookup_empty in Hk. unfold classify in Hk.
      destruct (prev !! k), (cur !! k); try done. by case_decide; subst. }
    rewrite length_diff_lines. split; [done|].
    pose proof (added_set_functional prev cur) as Ha.
    pose proof (removed_set_functional prev cur) as Hr.
    destruct (compare_counts c _ _ Ha Hr) as (Hn & Hna & Hnr).
    pose proof (compare_size c _ _ Ha Hr) as Hs.
    pose proof (renamed_le_added _ (removed_set prev cur) Ha).
    pose proof (renamed_le_removed (added_set prev cur) _ Hr).
    fold t in Hn, Hna, Hnr, Hs. lia.
Qed.

(** Read moved from number 3 to number 0: one addition and one removal, no
    rename. *)
Lemma moved_syscall_is_added_and_removed :
  let prev := Py.dict [(3, "read")]%Z in
  let cur := Py.dict [(0, "read")]%Z in
  0 < length (diff_lines (palette false)
                (diff (compare (palette false) (added_set prev cur) (removed_set prev cur)))).
Proof.
  intros prev cur.
  refine (proj1 (proj2 (proj2 (proj2
    (diff_classifies_each_number (palette false) prev cur))) _)).
  by vm_compute.
Defined.

(** ** Tables with the same syscalls *)

Lemma summary_not_newline c t rest : summary c t +:+ rest ≠ Py.nl.
Proof. unfold summary. by vm_compute. Qed.

(** X2: what is printed after the count line of a table is a bare newline
    exactly when the table maps the same numbers to the same names as the
    table before it; otherwise the summary and the diff lines are printed.
    Records in another order, or repeated records, make no difference as
    long as the mappings are equal. *)
Theorem no_diff_iff_same_syscalls (c : colors) (prev cur : gmap Z string) :
  (diff_report c (Some prev) cur = Py.nl ↔ prev = cur) ∧
  (prev ≠ cur ↔
     diff_report c (Some prev) cur =
       let t := compare c (added_set prev cur) (removed_set prev cur) in
       summary c t +:+ String.concat "" (diff_lines c (diff t))).
Proof.
  pose proof (differences_empty_iff prev cur) as Hiff. unfold diff_report.
  split; split.
  - case_decide as He; [tauto|]. by intros ?%summary_not_newline.
  - intros Heq. by rewrite decide_True by tauto.
  - intros Hne. by rewrite decide_False by tauto.
  - case_decide as He; [|tauto].
    intros Heq Hpc. symmetry in Heq. by apply summary_not_newline in Heq.
Qed.

(** ** Counts and table sizes *)

Lemma size_items (d : gmap Z string) : size (Py.items d) = size d.
Proof.
  unfold Py.items, map_to_set. rewrite size_list_to_set.
  - by rewrite length_fmap, length_map_to_list.
  - apply NoDup_fmap_2; [|apply NoDup_map_to_list].
    intros [k1 v1] [k2 v2]. simpl. congruence.
Qed.

Lemma size_differences (prev cur : gmap Z string) :
  size (added_set prev cur) + size prev = size (removed_set prev cur) + size cur.
Proof.
  unfold added_set, removed_set.
  rewrite (size_difference_alt (Py.items cur)), (size_difference_alt (Py.items prev)).
  rewrite <-(size_items prev), <-(size_items cur).
  assert (Py.items prev ∩ Py.items cur = Py.items cur ∩ Py.items prev) as ->
    by apply intersection_comm_L.
  pose proof (subseteq_size (Py.items cur ∩ Py.items prev) (Py.items cur)
                (intersection_subseteq_l _ _)).
  pose proof (subseteq_size (Py.items cur ∩ Py.items prev) (Py.items prev)
                (intersection_subseteq_r _ _)).
  lia.
Qed.

(** X3: the counts of a comparison account for the change of the count
    printed on the count lines: the number of syscalls of the current table
    is the number of the previous table plus the additions less the
    removals; renames do not change it. *)
Theorem counts_follow_table_sizes (c : colors) (prev cur : gmap Z string) :
  let t := compare c (added_set prev cur) (removed_set prev cur) in
  (Z.of_nat (size cur) = Z.of_nat (size prev) + n_added t - n_removed t)%Z.
Proof.
  intros t.
  destruct (compare_counts c _ _ (added_set_functional prev cur)
              (removed_set_functional prev cur)) as (_ & Ha & Hr).
  fold t in Ha, Hr. pose proof (size_differences prev cur). lia.
Qed.

(** ** Comparing in the other direction *)

(** X4: comparing the two tables in the other direction swaps the numbers
    of additions and removals and keeps the number of renames and the set
    of numbers that get a diff line, although the two loops treat the
    removed set and the added set differently; each entry is the one of the
    swapped pair of names. *)
Theorem reverse_comparison_swaps_counts (c : colors) (prev cur : gmap Z string) :
  let t := compare c (added_set prev cur) (removed_set prev cur) in
  let t' := compare c (added_set cur prev) (removed_set cur prev) in
  n_added t' = n_removed t ∧ n_removed t' = n_added t ∧
  n_renamed t' = n_renamed t ∧
  dom (diff t') = dom (diff t) ∧
  (∀ k, diff t' !! k = classify c (cur !! k) (prev !! k)).
Proof.
  intros t t'.
  pose proof (added_set_functional prev cur) as Ha.
  pose proof (removed_set_functional prev cur) as Hr.
  pose proof (added_set_functional cur prev) as Ha'.
  pose proof (removed_set_functional cur prev) as Hr'.
  destruct (compare_counts c _ _ Ha Hr) as (Hn & Hna & Hnr).
  destruct (compare_counts c _ _ Ha' Hr') as (Hn' & Hna' & Hnr').
  fold t in Hn, Hna, Hnr. fold t' in Hn', Hna', Hnr'.
  assert (added_set cur prev = removed_set prev cur) as Hsw1 by done.
  assert (removed_set cur prev = added_set prev cur) as Hsw2 by done.
  rewrite Hsw1, Hsw2 in Hn', Hna', Hnr'.
  rewrite (intersection_comm_L (numbers (removed_set prev cur))) in Hn', Hna', Hnr'.
  split; [lia|]. split; [lia|]. split; [lia|]. split.
  - unfold t, t'. rewrite !compare_dom by done. rewrite Hsw1, Hsw2.
    apply union_comm_L.
  - intros k. apply compare_classify.
Qed.

(** ** The order of iteration *)

(** X5: the report of a comparison does not depend on the order in which
    the two sets and the dictionary are iterated.  Python fixes no order
    for the elements of a set: whatever order the loop over [removed], the
    loop over [added] and [diff.items()] take, the counters, [diff] and the
    sorted items are the same, so the comparison prints the same text. *)
Theorem iteration_order_is_irrelevant (c : colors) (prev cur : gmap Z string)
    (lr la : list (Z * string)) (li : list (Z * (string * string))) :
  lr ≡ₚ elements (removed_set prev cur) →
  la ≡ₚ elements (added_set prev cur) →
  li ≡ₚ map_to_list (diff (compare_in_order c (length la) (length lr) lr la)) →
  let t := compare_in_order c (length la) (length lr) lr la in
  t = compare c (added_set prev cur) (removed_set prev cur) ∧
  diff_line c <$> Py.sorted item_ltb li = diff_lines c (diff t) ∧
  (prev ≠ cur →
   summary c t +:+ String.concat "" (diff_line c <$> Py.sorted item_ltb li) =
     diff_report c (Some prev) cur).
Proof.
  intros Hlr Hla Hli t.
  assert (t = compare c (added_set prev cur) (removed_set prev cur)) as Ht.
  { unfold t.
    replace (length la) with (size (added_set prev cur))
      by by rewrite Hla.
    replace (length lr) with (size (removed_set prev cur))
      by by rewrite Hlr.
    apply compare_any_order;
      [apply added_set_functional|apply removed_set_functional|done..]. }
  assert (Py.sorted item_ltb li = sorted_items (diff t)) as Hs
    by by apply sorted_items_any_order.
  split; [done|]. split; [by rewrite Hs|].
  intros Hne. rewrite Hs, Ht. unfold diff_report.
  pose proof (differences_empty_iff prev cur).
  by rewrite decide_False by tauto.
Qed.

(** Two additions and one removal, each iterated in the reverse of the
    order of [elements]. *)
Lemma reversed_iteration_gives_same_report :
  let prev := Py.dict [(0, "read"); (7, "poll")]%Z in
  let cur := Py.dict [(0, "read"); (1, "write"); (2, "open")]%Z in
  let lr := reverse (elements (removed_set prev cur)) in
  let la := reverse (elements (added_set prev cur)) in
  let t := compare_in_order (palette true) (length la) (length lr) lr la in
  t = compare (palette true) (added_set prev cur) (removed_set prev cur) ∧
  diff_line (palette true) <$> Py.sorted item_ltb (reverse (map_to_list (diff t)))
    = diff_lines (palette true) (diff t).
Proof.
  intros prev cur lr la t.
  pose proof (iteration_order_is_irrelevant (palette true) prev cur lr la
                (reverse (map_to_list (diff t)))
                (reverse_Permutation _) (reverse_Permutation _)
                (reverse_Permutation _)) as H.
  split; [exact (proj1 H)|exact (proj1 (proj2 H))].
Defined.

(** ** Runs that succeed *)

Lemma loop_exit0 c x prev tables :
  exit (loop c (Some x) prev tables) = Exit0 ↔ same_arch x tables.
Proof.
  unfold same_arch. revert prev.
  induction tables as [|t tables IH]; intros prev; [by split; [constructor|]|].
  rewrite Forall_cons. destruct (decide (arch_bits_abi t = x)) as [Heq|Hne].
  - rewrite loop_cons_same by done. cbn [exit]. rewrite IH. tauto.
  - rewrite loop_cons_differ by done. cbn [exit]. split; [done|tauto].
Qed.

Lemma one_arch_cons t tables :
  one_arch (t :: tables) ↔ same_arch (arch_bits_abi t) tables.
Proof.
  unfold one_arch, same_arch. rewrite Forall_forall. split.
  - intros H a Ha. apply H; [by right|by left].
  - intros H a b Ha Hb.
    assert (∀ y, y ∈ t :: tables → arch_bits_abi y = arch_bits_abi t) as Hy.
    { intros y [->|Hy]%elem_of_cons; [done|by apply H]. }
    by rewrite (Hy a), (Hy b).
Qed.

Lemma loop_first_exit0 c tables :
  exit (loop c None None tables) = Exit0 ↔ one_arch tables.
Proof.
  destruct tables as [|t tables].
  - split; [|done]. by intros _ a b Ha%elem_of_nil.
  - rewrite loop_cons_none, one_arch_cons. cbn [exit]. apply loop_exit0.
Qed.

Lemma one_arch_Permutation l1 l2 : l1 ≡ₚ l2 → one_arch l1 ↔ one_arch l2.
Proof.
  intros Hp. unfold one_arch. by setoid_rewrite Hp.
Qed.

Lemma length_blocks c prev tables : length (blocks c prev tables) = length tables.
Proof.
  revert prev. induction tables as [|t tables IH]; intros prev; [done|].
  simpl. by rewrite IH.
Qed.

Lemma loop_one_arch c tables :
  one_arch tables →
  loop c None None tables =
    {| stdout := String.concat "" (blocks c None tables); exit := Exit0 |}.
Proof.
  destruct tables as [|t tables]; [done|].
  rewrite one_arch_cons. apply loop_first.
Qed.

(** X6: a run ends with status 0 exactly when at least two arguments
    follow the program name, every file the patterns expand to loads, every
    loaded tag is [latest] or parses as a version, no two loaded tables
    have the same tag, and all loaded tables have the same descriptor.
    Standard output is then one block per loaded table, in sorted order,
    and nothing else. *)
Theorem run_succeeds_iff (fs : filesystem) (isatty : bool) (argv : list string) :
  (exit (main fs isatty argv) = Exit0 ↔
     3 ≤ length argv ∧
     ∃ loaded, load_tables fs (tail argv) = Some loaded ∧
       Forall (λ t, parses (version t)) loaded ∧
       NoDup (version <$> loaded) ∧
       one_arch loaded) ∧
  (exit (main fs isatty argv) = Exit0 →
     ∃ loaded sorted,
       load_tables fs (tail argv) = Some loaded ∧
       sort_tables loaded = inr sorted ∧
       stdout (main fs isatty argv) =
         String.concat "" (blocks (palette isatty) None sorted) ∧
       length (blocks (palette isatty) None sorted) = length loaded).
Proof.
  assert (exit (main fs isatty argv) = Exit0 →
    3 ≤ length argv ∧
    ∃ loaded sorted, load_tables fs (tail argv) = Some loaded ∧
      sort_tables loaded = inr sorted ∧ NoDup (version <$> loaded) ∧
      one_arch sorted) as Hfwd.
  { destruct (decide (3 ≤ length argv)) as [Hlen|Hlen].
    2:{ unfold main. rewrite (proj2 (Nat.ltb_lt _ _)) by lia.
        by destruct argv. }
    destruct (load_tables fs (tail argv)) as [loaded|] eqn:Hload.
    2:{ unfold main. rewrite (proj2 (Nat.ltb_ge _ _) Hlen), Hload. done. }
    rewrite (main_loaded _ _ _ _ Hlen Hload).
    destruct (sort_tables loaded) as [e|sorted] eqn:Hsort; [done|].
    case_decide as Hnd; [|done].
    intros Hex%loop_first_exit0. split; [done|]. by exists loaded, sorted. }
  split; [split|].
  - intros (Hlen & loaded & sorted & Hload & Hsort & Hnd & Hone)%Hfwd.
    split; [done|]. exists loaded.
    apply sort_tables_inr in Hsort as (Hp & Hperm & _).
    split; [done|]. split; [done|]. split; [done|].
    by apply (one_arch_Permutation _ _ Hperm).
  - intros (Hlen & loaded & Hload & Hp & Hnd & Hone).
    rewrite (main_loaded _ _ _ _ Hlen Hload).
    destruct (sort_tables_parses _ Hp) as [sorted Hsort]. rewrite Hsort.
    rewrite decide_True by done. apply loop_first_exit0.
    apply sort_tables_inr in Hsort as (_ & Hperm & _).
    by apply (one_arch_Permutation _ _ Hperm).
  - intros (Hlen & loaded & sorted & Hload & Hsort & Hnd & Hone)%Hfwd.
    exists loaded, sorted. split; [done|]. split; [done|].
    rewrite (main_loaded _ _ _ _ Hlen Hload), Hsort, decide_True by done.
    rewrite loop_one_arch by done. split; [done|].
    rewrite length_blocks.
    apply sort_tables_inr in Hsort as (_ & Hperm & _). by rewrite Hperm.
Qed.

(** The two tables of the addition example, named in the wrong order: the
    run succeeds and prints two blocks. *)
Lemma two_files_run_succeeds :
  ∃ loaded sorted,
    load_tables two_files (tail ["prog"; "b"; "a"]) = Some loaded ∧
    sort_tables loaded = inr sorted ∧
    stdout (main two_files false ["prog"; "b"; "a"]) =
      String.concat "" (blocks (palette false) None sorted) ∧
    length (blocks (palette false) None sorted) = length loaded.
Proof.
  apply (proj2 (run_succeeds_iff two_files false ["prog"; "b"; "a"])).
  by vm_compute.
Defined.

(** ** The terminal and the exit status *)

Lemma loop_exit_colors c c' arch prev prev' tables :
  exit (loop c arch prev tables) = exit (loop c' arch prev' tables).
Proof.
  revert arch prev prev'.
  induction tables as [|t tables IH]; intros arch prev prev'; [done|].
  destruct arch as [x|].
  - destruct (decide (arch_bits_abi t = x)) as [Heq|Hne].
    + rewrite !loop_cons_same by done. cbn [exit]. apply IH.
    + by rewrite !loop_cons_differ by done.
  - rewrite !loop_cons_none. cbn [exit]. apply IH.
Qed.

(** X7: whether standard output is a terminal changes neither the exit
    status nor the message on standard error: the colour codes take no part
    in any check, in the sort or in the comparison of descriptors. *)
Theorem terminal_does_not_change_exit (fs : filesystem) (argv : list string)
    (isatty isatty' : bool) :
  exit (main fs isatty argv) = exit (main fs isatty' argv) ∧
  stderr (exit (main fs isatty argv)) = stderr (exit (main fs isatty' argv)) ∧
  (stdout (main fs isatty argv) = "" ↔ stdout (main fs isatty' argv) = "").
Proof.
  assert (exit (main fs isatty argv) = exit (main fs isatty' argv)) as He.
  { unfold main. repeat case_match; try done. apply loop_exit_colors. }
  split; [done|]. split; [by rewrite He|].
  unfold main. repeat case_match; try done.
  match goal with |- context [loop _ None None ?l] => destruct l as [|t l] end;
    [done|].
  rewrite !loop_cons_none. cbn [stdout]. unfold count_line.
  split; intros Hs; by destruct (Py.ljust 5 (version t)).
Qed.

(** ** The loop over a list in two parts *)

Lemma result_eta (r : result) : r = {| stdout := stdout r; exit := exit r |}.
Proof. by destruct r. Qed.

Lemma loop_app c arch prev l1 l2 :
  loop c arch prev (l1 ++ l2) =
    match exit (loop c arch prev l1) with
    | Exit0 =>
        let r := loop c (arch_after arch l1) (syscalls_after prev l1) l2 in
        {| stdout := stdout (loop c arch prev l1) +:+ stdout r; exit := exit r |}
    | _ => loop c arch prev l1
    end.
Proof.
  revert arch prev. induction l1 as [|t l1 IH]; intros arch prev.
  { cbn. apply result_eta. }
  assert (∀ a p, arch_after a (t :: l1) = arch_after (Some (arch_bits_abi t)) l1 ∧
                 syscalls_after p (t :: l1) = syscalls_after (Some (syscalls_of t)) l1)
    as Hafter.
  { intros a p. unfold arch_after, syscalls_after.
    destruct l1 as [|t' l1']; [done|]. change (last (t :: t' :: l1')) with (last (t' :: l1')).
    destruct (last (t' :: l1')) eqn:E; [done|]. by apply last_None in E. }
  assert (∀ x, arch_bits_abi t = x →
    loop c (Some x) prev ((t :: l1) ++ l2) =
      match exit (loop c (Some x) prev (t :: l1)) with
      | Exit0 =>
          let r := loop c (arch_after arch (t :: l1)) (syscalls_after prev (t :: l1)) l2 in
          {| stdout := stdout (loop c (Some x) prev (t :: l1)) +:+ stdout r;
             exit := exit r |}
      | _ => loop c (Some x) prev (t :: l1)
      end) as Hsame.
  { intros x Hx. cbn [app]. rewrite !loop_cons_same by done. rewrite IH.
    destruct (Hafter arch prev) as [-> ->]. subst x. cbn [stdout exit].
    destruct (exit (loop c (Some (arch_bits_abi t)) (Some (syscalls_of t)) l1))
      eqn:He; cbn [stdout exit]; rewrite ?He; [|done..].
    by rewrite !app_assoc_s. }
  destruct arch as [x|].
  - destruct (decide (arch_bits_abi t = x)) as [Heq|Hne].
    + exact (Hsame x Heq).
    + cbn [app]. by rewrite !loop_cons_differ by done.
  - specialize (Hsame _ eq_refl). cbn [app] in *.
    rewrite !loop_cons_none. rewrite !loop_cons_same in Hsame by done.
    exact Hsame.
Qed.

(** X8: the loop over a list of tables in two parts.  If the first part
    ends in a mismatch of descriptors, the run ends there whatever follows;
    otherwise the second part goes on from the descriptor and the syscalls
    of the last table of the first part, and what it prints is appended.  In
    both cases what is printed for the first part is the beginning of what
    is printed for the whole list: a table never changes the lines of the
    tables before it. *)
Theorem output_extends_with_more_tables (c : colors) (arch : option string)
    (prev : option (gmap Z string)) (l1 l2 : list Table) :
  loop c arch prev (l1 ++ l2) =
    match exit (loop c arch prev l1) with
    | Exit0 =>
        let r := loop c (arch_after arch l1) (syscalls_after prev l1) l2 in
        {| stdout := stdout (loop c arch prev l1) +:+ stdout r; exit := exit r |}
    | _ => loop c arch prev l1
    end ∧
  ∃ more, stdout (loop c arch prev (l1 ++ l2)) = stdout (loop c arch prev l1) +:+ more.
Proof.
  split; [apply loop_app|]. rewrite loop_app.
  destruct (exit (loop c arch prev l1)).
  - by eexists.
  - exists "". by rewrite app_nil_r_s.
  - exists "". by rewrite app_nil_r_s.
Qed.

(** ** Loading the tables *)

Lemma load_files_mapM fs fnames :
  load_files fs fnames = mapM (json_load fs) fnames.
Proof.
  induction fnames as [|f fnames IH]; [done|]. cbn. rewrite IH.
  by destruct (json_load fs f).
Qed.

Lemma mapM_app_option {A B} (f : A → option B) l1 l2 :
  mapM f (l1 ++ l2) =
    match mapM f l1 with
    | Some k1 => app k1 <$> mapM f l2
    | None => None
    end.
Proof.
  induction l1 as [|x l1 IH]; cbn.
  { by destruct (mapM f l2). }
  destruct (f x); [|done]. cbn. rewrite IH.
  destruct (mapM f l1); [|done]. cbn. by destruct (mapM f l2).
Qed.

Lemma elem_of_concat {A} (x : A) (ls : list (list A)) :
  x ∈ concat ls ↔ ∃ l, x ∈ l ∧ l ∈ ls.
Proof.
  induction ls as [|a ls IH]; simpl.
  - split; [by intros ?%elem_of_nil|by intros (? & _ & ?%elem_of_nil)].
  - rewrite elem_of_app, IH. split.
    + intros [Hx|(l & Hx & Hl)].
      * exists a. split; [done|by left].
      * exists l. split; [done|by right].
    + intros (l & Hx & [->|Hl]%elem_of_cons); [by left|right; eauto].
Qed.

Lemma load_tables_mapM fs patterns :
  load_tables fs patterns = mapM (json_load fs) (concat (glob fs <$> patterns)).
Proof.
  induction patterns as [|p patterns IH]; [done|]. cbn.
  by rewrite mapM_app_option, <-load_files_mapM, IH.
Qed.

(** X9: the two nested loops load the files the patterns expand to as one
    list, in the order of the command line and, within a pattern, in the
    order of the expansion: table number [i] is what file number [i]
    parses to, so there are as many tables as resolved files, a file that
    is resolved twice is loaded twice, and loading fails exactly when some
    resolved file does not load. *)
Theorem tables_load_in_command_line_order (fs : filesystem) (patterns : list string) :
  (∀ loaded,
     load_tables fs patterns = Some loaded ↔
       Forall2 (λ f t, json_load fs f = Some t) (concat (glob fs <$> patterns)) loaded) ∧
  (∀ loaded,
     load_tables fs patterns = Some loaded →
     length loaded = length (concat (glob fs <$> patterns)) ∧
     ∀ i f, concat (glob fs <$> patterns) !! i = Some f → json_load fs f = loaded !! i) ∧
  (load_tables fs patterns = None ↔
     ∃ p f, p ∈ patterns ∧ f ∈ glob fs p ∧ json_load fs f = None).
Proof.
  rewrite load_tables_mapM. split; [|split].
  - intros loaded. apply mapM_Some.
  - intros loaded Hl. split; [symmetry; by eapply length_mapM|].
    intros i f Hi. apply mapM_Some in Hl.
    destruct (Forall2_lookup_l _ _ _ _ _ Hl Hi) as (t & -> & Ht). done.
  - rewrite mapM_None, Exists_exists. split.
    + intros (f & (l & Hf & Hl)%elem_of_concat & Hnone).
      apply list_elem_of_fmap in Hl as (p & -> & Hp). by exists p, f.
    + intros (p & f & Hp & Hf & Hnone). exists f. split; [|done].
      apply elem_of_concat. exists (glob fs p). split; [done|].
      by apply list_elem_of_fmap_2.
Qed.

(** The file [b], then the pattern [*]: three tables, the table of [b]
    first and last. *)
Lemma two_files_load_in_order :
  length [t_read_write_open; t_read_write; t_read_write_open]
    = length (concat (glob two_files <$> ["b"; "*"])) ∧
  ∀ i f, concat (glob two_files <$> ["b"; "*"]) !! i = Some f →
         json_load two_files f
           = [t_read_write_open; t_read_write; t_read_write_open] !! i.
Proof.
  refine (proj1 (proj2 (tables_load_in_command_line_order two_files ["b"; "*"]))
            [t_read_write_open; t_read_write; t_read_write_open] _).
  reflexivity.
Defined.

Lemma resolved_twice_loaded_twice fs argv loaded :
  load_tables fs (tail argv) = Some loaded →
  NoDup (version <$> loaded) → NoDup (resolved fs argv).
Proof.
  rewrite load_tables_mapM, mapM_Some. fold (resolved fs argv).
  intros Hl Hnd. apply NoDup_alt. intros i j f Hi Hj.
  destruct (Forall2_lookup_l _ _ _ _ _ Hl Hi) as (ti & Hti & Hfi).
  destruct (Forall2_lookup_l _ _ _ _ _ Hl Hj) as (tj & Htj & Hfj).
  assert (ti = tj) as -> by congruence.
  eapply (proj1 (NoDup_alt _) Hnd i j (version tj)).
  - by rewrite list_lookup_fmap, Hti.
  - by rewrite list_lookup_fmap, Htj.
Qed.

(** X10: a file that the patterns resolve to more than once (named twice,
    or matched by two patterns) is loaded as two tables with the same tag,
    so the run prints nothing and ends with status 1; when all files load
    and all tags parse, the message is the one for duplicate versions. *)
Theorem file_resolved_twice_ends_the_run (fs : filesystem) (isatty : bool)
    (argv : list string) :
  3 ≤ length argv →
  ¬ NoDup (resolved fs argv) →
  stdout (main fs isatty argv) = "" ∧
  exit_code (exit (main fs isatty argv)) = 1%Z ∧
  (∀ loaded, load_tables fs (tail argv) = Some loaded →
             Forall (λ t, parses (version t)) loaded →
             exit (main fs isatty argv) = SysExit duplicate_versions).
Proof.
  intros Hlen Hdup.
  destruct (load_tables fs (tail argv)) as [loaded|] eqn:Hload.
  2:{ unfold main. by rewrite (proj2 (Nat.ltb_ge _ _) Hlen), Hload. }
  rewrite (main_loaded _ _ _ _ Hlen Hload).
  assert (¬ NoDup (version <$> loaded)) as Hnd
    by (intros Hnd; apply Hdup; by eapply resolved_twice_loaded_twice).
  destruct (sort_tables loaded) as [e|sorted] eqn:Hsort.
  - split; [done|]. split; [done|]. intros ? [= <-] Hp.
    destruct (sort_tables_parses _ Hp) as [? ?]. congruence.
  - rewrite decide_False by done. split; [done|]. split; [done|]. done.
Qed.

(** The pattern [*] expands to both files, and the file [a] is named once
    more. *)
Lemma file_named_by_two_patterns :
  stdout (main two_files true ["prog"; "*"; "a"]) = "" ∧
  exit_code (exit (main two_files true ["prog"; "*"; "a"])) = 1%Z.
Proof.
  assert (3 ≤ length ["prog"; "*"; "a"]) as Hlen by (simpl; lia).
  assert (¬ NoDup (resolved two_files ["prog"; "*"; "a"])) as Hdup
    by (apply (bool_decide_unpack _); by vm_compute).
  destruct (file_resolved_twice_ends_the_run two_files true _ Hlen Hdup)
    as (Hout & Hcode & _).
  by split.
Defined.

(** ** Runs that print nothing *)

Lemma count_line_nonempty tag d rest : count_line tag d +:+ rest ≠ "".
Proof. unfold count_line. by destruct (Py.ljust 5 tag). Qed.

Lemma blocks_nonempty c prev tables :
  String.concat "" (blocks c prev tables) = "" → tables = [].
Proof.
  destruct tables as [|t tables]; [done|]. cbn [blocks].
  rewrite concat_cons_s, app_assoc_s. by intros ?%count_line_nonempty.
Qed.

(** X11: with at least two arguments after the program name, a run is
    silent and successful exactly when the patterns expand to no file at
    all: patterns that match nothing are no error, and every loaded table
    of a successful run leaves at least its count line. *)
Theorem silent_success_iff_no_files (fs : filesystem) (isatty : bool)
    (argv : list string) :
  3 ≤ length argv →
  main fs isatty argv = {| stdout := ""; exit := Exit0 |} ↔ resolved fs argv = [].
Proof.
  intros Hlen. split.
  - intros Hm.
    destruct (load_tables fs (tail argv)) as [loaded|] eqn:Hload.
    2:{ unfold main in Hm.
        by rewrite (proj2 (Nat.ltb_ge _ _) Hlen), Hload in Hm. }
    rewrite (main_loaded _ _ _ _ Hlen Hload) in Hm.
    destruct (sort_tables loaded) as [e|sorted] eqn:Hsort; [done|].
    case_decide as Hnd; [|done].
    assert (one_arch sorted) as Hone by (apply (loop_first_exit0 (palette isatty)); by rewrite Hm).
    rewrite loop_one_arch in Hm by done. injection Hm as Hout.
    apply blocks_nonempty in Hout as ->.
    apply sort_tables_inr in Hsort as (_ & Hperm & _).
    apply Permutation_nil_l in Hperm as <-.
    rewrite load_tables_mapM in Hload. apply length_mapM in Hload.
    by apply nil_length_inv.
  - intros Hres. unfold resolved in Hres.
    assert (load_tables fs (tail argv) = Some []) as Hload
      by by rewrite load_tables_mapM, Hres.
    by rewrite (main_loaded _ _ _ _ Hlen Hload).
Qed.

(** Two patterns on a file system without files. *)
Lemma no_files_silent_success :
  main (files_of []) true ["prog"; "*"; "*.json"] = {| stdout := ""; exit := Exit0 |}.
Proof.
  apply (silent_success_iff_no_files (files_of []) true ["prog"; "*"; "*.json"]).
  - simpl. lia.
  - reflexivity.
Defined.

(** ** Tags that do not parse *)

Lemma with_keys_first_bad before t after e :
  Forall (λ t, parses (version t)) before →
  tag_to_tuple (version t) = inl e →
  with_keys (before ++ t :: after) = inl e.
Proof.
  intros Hp Ht. induction Hp as [|b before [k Hb] _ IH]; simpl.
  - by rewrite Ht.
  - by rewrite Hb, IH.
Qed.

Lemma tag_to_tuple_inl tag e :
  tag_to_tuple tag = inl e →
  e = Py.IndexError ∧ tag = "" ∨
  e = Py.AssertionError ∧ (∃ ch rest, tag = String ch rest ∧ ch ≠ "v"%char) ∨
  e = Py.ValueError ∧
    ∃ rest, tag = String "v" rest ∧ Exists (λ p, Py.int p = None) (Py.split "." rest).
Proof.
  unfold tag_to_tuple. destruct (String.eqb_spec tag "latest") as [->|Hne]; [done|].
  destruct tag as [|ch rest]; [intros [= <-]; by left|].
  destruct (Ascii.eqb_spec ch "v") as [->|Hv].
  - destruct (mapM Py.int (Py.split "." rest)) as [ns|] eqn:Ens; [done|].
    intros [= <-]. right. right. split; [done|]. exists rest. split; [done|].
    by apply mapM_None.
  - intros [= <-]. right. left. split; [done|]. by exists ch, rest.
Qed.

(** X12: the sort computes the key of every table before it orders any:
    the first loaded table, in command-line order, whose tag is neither
    [latest] nor a [v] followed by dot-separated integers ends the run with
    its exception, before anything is printed, whatever the tables after it
    hold and whether or not there are duplicate tags or different
    descriptors.  The exception is [IndexError] for the empty tag,
    [AssertionError] for a tag that does not start with [v], and
    [ValueError] for a part after the [v] that [int] rejects. *)
Theorem first_bad_tag_ends_the_run (fs : filesystem) (isatty : bool)
    (argv : list string) (before : list Table) (t : Table) (after : list Table)
    (e : Py.exn) :
  3 ≤ length argv →
  load_tables fs (tail argv) = Some (before ++ t :: after) →
  Forall (λ t, parses (version t)) before →
  tag_to_tuple (version t) = inl e →
  main fs isatty argv = quiet (Uncaught e) ∧
  (e = Py.IndexError ∧ version t = "" ∨
   e = Py.AssertionError ∧ (∃ ch rest, version t = String ch rest ∧ ch ≠ "v"%char) ∨
   e = Py.ValueError ∧
     ∃ rest, version t = String "v" rest ∧
             Exists (λ p, Py.int p = None) (Py.split "." rest)).
Proof.
  intros Hlen Hload Hp Ht. split; [|by apply tag_to_tuple_inl].
  rewrite (main_loaded _ _ _ _ Hlen Hload). unfold sort_tables.
  by rewrite (with_keys_first_bad _ _ _ _ Hp Ht).
Qed.

(** A tag without the [v], after a table that parses and before a table
    with an empty tag and another architecture. *)
Lemma tag_without_v_raises_assertion :
  main (files_of [("a", t_5_9); ("b", mk "5.10" "x86" []); ("c", mk "" "arm" [])])
       false ["prog"; "a"; "b"; "c"]
    = quiet (Uncaught Py.AssertionError).
Proof.
  refine (proj1 (first_bad_tag_ends_the_run
    (files_of [("a", t_5_9); ("b", mk "5.10" "x86" []); ("c", mk "" "arm" [])])
    false ["prog"; "a"; "b"; "c"] [t_5_9] (mk "5.10" "x86" []) [mk "" "arm" []]
    Py.AssertionError _ _ _ _)).
  - simpl. lia.
  - reflexivity.
  - constructor; [|constructor]. eexists. reflexivity.
  - reflexivity.
Defined.

(** ** The sort is stable *)

Section stable.

Context {A : Type} (lt : A → A → bool).
Context (P : A → Prop) `{!∀ x, Decision (P x)}.

Lemma filter_insert x l :
  (∀ y, y ∈ l → P y → P x → lt y x = false) →
  filter P (Py.insert lt x l) = filter P (x :: l).
Proof.
  induction l as [|y l IH]; intros Hlt; [done|]. simpl.
  destruct (lt y x) eqn:Hyx; [|done].
  rewrite !filter_cons, IH by (intros z Hz; apply Hlt; by right).
  rewrite filter_cons.
  destruct (decide (P y)) as [Hy|Hy], (decide (P x)) as [Hx|Hx]; try done.
  rewrite Hlt in Hyx; [done|by left|done..].
Qed.

Lemma filter_sorted l :
  (∀ x y, x ∈ l → y ∈ l → P x → P y → lt y x = false) →
  filter P (Py.sorted lt l) = filter P l.
Proof.
  induction l as [|x l IH]; intros Hlt; [done|].
  unfold Py.sorted. simpl. fold (Py.sorted lt l).
  rewrite filter_insert.
  - rewrite !filter_cons, IH; [done|].
    intros a b Ha Hb. apply Hlt; by right.
  - intros y Hy. rewrite sorted_Permutation in Hy.
    intros Py Px. apply Hlt; [by left|by right|done..].
Qed.

Lemma sorted_id l :
  StronglySorted (λ a b, lt b a = false) l → Py.sorted lt l = l.
Proof.
  induction 1 as [|x l _ IH Hx]; [done|].
  unfold Py.sorted. simpl. fold (Py.sorted lt l). rewrite IH.
  destruct l as [|y l]; [done|]. simpl.
  apply Forall_cons in Hx as [-> _]. done.
Qed.

End stable.

Lemma filter_fmap {A B} (f : A → B) (P : B → Prop) `{!∀ x, Decision (P x)} (l : list A) :
  filter P (f <$> l) = f <$> filter (λ x, P (f x)) l.
Proof.
  induction l as [|x l IH]; [done|]. csimpl. rewrite !filter_cons, IH.
  by destruct (decide (P (f x))).
Qed.

Lemma tuple_ltb_irrefl a : tuple_ltb a a = false.
Proof.
  destruct (tuple_ltb a a) eqn:E; [|done]. by rewrite (tuple_ltb_asym _ _ E) in E.
Qed.

Lemma tuple_le_antisym a b : tuple_le a b → tuple_le b a → a = b.
Proof.
  unfold tuple_le. revert b.
  induction a as [|x a IH]; intros [|y b]; simpl; try done.
  rewrite (vnum_eqb_sym y x). destruct (vnum_eqb x y) eqn:Exy.
  - apply vnum_eqb_eq in Exy as ->. intros H1 H2. f_equal. by apply IH.
  - intros H1 H2. rewrite (vnum_ltb_total _ _ Exy H2) in H1. done.
Qed.

Lemma sort_tables_parsed tables :
  Forall (λ t, parses (version t)) tables →
  sort_tables tables = inr (snd <$> Py.sorted key_ltb ((λ t, (key_of t, t)) <$> tables)).
Proof. intros Hp. unfold sort_tables. by rewrite (with_keys_inr _ Hp). Qed.

Lemma sort_tables_sorted tables :
  Forall (λ t, parses (version t)) tables →
  StronglySorted (λ a b, tuple_le (key_of a) (key_of b)) tables →
  sort_tables tables = inr tables.
Proof.
  intros Hp Hs. rewrite sort_tables_parsed by done. f_equal.
  rewrite sorted_id.
  - rewrite <-list_fmap_compose. apply list_fmap_id.
  - eapply StronglySorted_fmap; [|exact Hs]. done.
Qed.

(** X13: the sort is stable and compares the version tuples only.  Tables
    whose tags give the same tuple (as [v5.1] and [v5.01] do) stay in the
    order of the command line; tables that are already in the order of their
    tuples are left as they are; and sorting the sorted list changes
    nothing. *)
Theorem sort_is_stable (loaded sorted : list Table) :
  sort_tables loaded = inr sorted →
  (∀ k, filter (λ t, key_of t = k) sorted = filter (λ t, key_of t = k) loaded) ∧
  sort_tables sorted = inr sorted ∧
  (StronglySorted (λ a b, tuple_le (key_of a) (key_of b)) loaded → sorted = loaded).
Proof.
  intros Hsort. pose proof (sort_tables_inr _ _ Hsort) as (Hp & Hperm & Hs).
  split; [|split].
  - intros k. rewrite sort_tables_parsed in Hsort by done. injection Hsort as <-.
    rewrite filter_fmap, filter_sorted.
    + rewrite filter_fmap, <-list_fmap_compose. apply list_fmap_id.
    + intros x y (tx & -> & _)%list_elem_of_fmap (ty & -> & _)%list_elem_of_fmap.
      unfold key_ltb. simpl. intros -> ->. apply tuple_ltb_irrefl.
  - apply sort_tables_sorted; [by rewrite Hperm|done].
  - intros Hl. rewrite (sort_tables_sorted _ Hp Hl) in Hsort. congruence.
Qed.

(** The tags [v5.1] and [v5.01] give the tuple (5, 1): the two tables stay
    in the order they were loaded in, before [v5.2]. *)
Lemma equal_tuples_keep_their_order :
  let a := mk "v5.1" "x86" [] in
  let b := mk "v5.01" "x86" [] in
  let c := mk "v5.2" "x86" [] in
  (∀ k, filter (λ t, key_of t = k) [b; a; c] = filter (λ t, key_of t = k) [b; c; a]) ∧
  sort_tables [b; a; c] = inr [b; a; c].
Proof.
  intros a b c.
  assert (sort_tables [b; c; a] = inr [b; a; c]) as Hsort by reflexivity.
  destruct (sort_is_stable [b; c; a] [b; a; c] Hsort) as (Hk & Hid & _).
  by split.
Defined.

(** ** The order of the files *)

Lemma fmap_inj_on {A B} (f : A → B) (l : list A) x y :
  NoDup (f <$> l) → x ∈ l → y ∈ l → f x = f y → x = y.
Proof.
  intros Hnd (i & Hi)%list_elem_of_lookup (j & Hj)%list_elem_of_lookup Hf.
  assert (i = j) as ->; [|congruence].
  apply (proj1 (NoDup_alt _) Hnd i j (f x)).
  - by rewrite list_lookup_fmap, Hi.
  - by rewrite list_lookup_fmap, Hj, Hf.
Qed.

Lemma key_of_bad t e : tag_to_tuple (version t) = inl e → key_of t = [].
Proof. unfold key_of, key_of_tag. by intros ->. Qed.

Lemma sort_tables_any_order loaded loaded' :
  loaded ≡ₚ loaded' →
  NoDup (key_of <$> loaded) →
  sort_tables loaded = sort_tables loaded'.
Proof.
  intros Hperm Hnd.
  destruct (sort_tables loaded) as [e|s] eqn:Hs,
           (sort_tables loaded') as [e'|s'] eqn:Hs'.
  - unfold sort_tables in Hs, Hs'.
    destruct (with_keys loaded) eqn:Hk; [|done].
    destruct (with_keys loaded') eqn:Hk'; [|done].
    injection Hs as ->. injection Hs' as ->.
    apply with_keys_inl, Exists_exists in Hk as (t & Ht & He).
    apply with_keys_inl, Exists_exists in Hk' as (t' & Ht' & He').
    rewrite <-Hperm in Ht'.
    assert (t = t') as <-; [|congruence].
    apply (fmap_inj_on key_of loaded); [done..|].
    by rewrite (key_of_bad _ _ He), (key_of_bad _ _ He').
  - apply sort_tables_inr in Hs' as (Hp & _ & _). rewrite <-Hperm in Hp.
    destruct (sort_tables_parses _ Hp). congruence.
  - apply sort_tables_inr in Hs as (Hp & _ & _). rewrite Hperm in Hp.
    destruct (sort_tables_parses _ Hp). congruence.
  - apply sort_tables_inr in Hs as (_ & Hp & Hs).
    apply sort_tables_inr in Hs' as (_ & Hp' & Hs').
    f_equal. eapply StronglySorted_unique_strong; [|exact Hs|exact Hs'|].
    + intros x y Hx Hy Hxy Hyx. rewrite Hp in Hx. rewrite Hp', <-Hperm in Hy.
      apply (fmap_inj_on key_of loaded); [done..|]. by apply tuple_le_antisym.
    + by rewrite Hp, Hp'.
Qed.

(** X14: the report does not depend on the order in which the files are
    named or expanded, as long as the tags of the loaded tables give
    different version tuples: two command lines that load the same tables
    in different orders end in the same way and print the same text.  This
    covers the runs that fail, too: with different tuples at most one tag
    fails to parse, so the exception is the same. *)
Theorem report_independent_of_file_order (fs : filesystem) (isatty : bool)
    (argv argv' : list string) (loaded loaded' : list Table) :
  3 ≤ length argv → 3 ≤ length argv' →
  load_tables fs (tail argv) = Some loaded →
  load_tables fs (tail argv') = Some loaded' →
  loaded ≡ₚ loaded' →
  NoDup (key_of <$> loaded) →
  main fs isatty argv = main fs isatty argv'.
Proof.
  intros Hlen Hlen' Hload Hload' Hperm Hnd.
  rewrite (main_loaded _ _ _ _ Hlen Hload), (main_loaded _ _ _ _ Hlen' Hload').
  rewrite <-(sort_tables_any_order _ _ Hperm Hnd).
  destruct (sort_tables loaded); [done|].
  assert (NoDup (version <$> loaded) ↔ NoDup (version <$> loaded')) as Hiff
    by by rewrite Hperm.
  repeat case_decide; tauto.
Qed.

(** The four files of the architecture example, named in two orders. *)
Lemma mixed_files_in_two_orders :
  main mixed_files true ["prog"; "a"; "b"; "c"; "d"]
    = main mixed_files true ["prog"; "d"; "c"; "b"; "a"].
Proof.
  apply (report_independent_of_file_order mixed_files true
           ["prog"; "a"; "b"; "c"; "d"] ["prog"; "d"; "c"; "b"; "a"]
           [t_6_0; t_arm; t_read_write; t_5_9] [t_5_9; t_read_write; t_arm; t_6_0]).
  - simpl. lia.
  - simpl. lia.
  - reflexivity.
  - reflexivity.
  - apply (bool_decide_unpack _). by vm_compute.
  - apply (bool_decide_unpack _). by vm_compute.
Defined.

(** ** The descriptor of a table *)

Lemma app_String ch a b : String ch a +:+ b = String ch (a +:+ b).
Proof. done. Qed.

Lemma app_nil_l_s a : "" +:+ a = a.
Proof. done. Qed.

Lemma slash_free_String ch s : slash_free (String ch s) ↔ ch ≠ "/"%char ∧ slash_free s.
Proof.
  unfold slash_free. simpl. rewrite not_elem_of_cons. split; intros [? ?]; by split.
Qed.

Lemma slash_free_app a b : slash_free (a +:+ b) ↔ slash_free a ∧ slash_free b.
Proof. unfold slash_free. by rewrite list_ascii_app, not_elem_of_app. Qed.

Lemma slash_free_pretty_N_go x s : slash_free s → slash_free (pretty_N_go x s).
Proof.
  revert s. induction (N.lt_wf_0 x) as [x _ IH]; intros s Hs.
  destruct (decide (0 < x)%N) as [Hx|Hx].
  - rewrite pretty_N_go_step by done. apply IH; [by apply N.div_lt|].
    apply slash_free_String. split; [|done].
    unfold pretty_N_char. by repeat case_match.
  - by replace x with 0%N by lia.
Qed.

Lemma slash_free_str n : slash_free (Py.str n).
Proof.
  assert (slash_free "") as Hnil by (apply (bool_decide_unpack _); by vm_compute).
  assert (∀ x : N, slash_free (pretty x)) as HN.
  { intros x. unfold pretty, pretty_N. case_decide.
    - apply (bool_decide_unpack _). by vm_compute.
    - by apply slash_free_pretty_N_go. }
  unfold Py.str, pretty, pretty_Z. destruct n as [|p|p].
  - apply (bool_decide_unpack _). by vm_compute.
  - apply HN.
  - apply slash_free_app. split; [|apply HN].
    apply (bool_decide_unpack _). by vm_compute.
Qed.

Lemma app_slash_inj a1 a2 r1 r2 :
  slash_free a1 → slash_free a2 →
  a1 +:+ "/" +:+ r1 = a2 +:+ "/" +:+ r2 → a1 = a2 ∧ r1 = r2.
Proof.
  revert a2. induction a1 as [|ch a1 IH]; intros [|ch' a2] H1 H2;
    rewrite ?app_String, ?app_nil_l_s.
  - by intros [= ->].
  - intros [= <- _]. by apply slash_free_String in H2 as [? _].
  - intros [= -> _]. by apply slash_free_String in H1 as [? _].
  - apply slash_free_String in H1 as [_ H1]. apply slash_free_String in H2 as [_ H2].
    intros [= -> Heq]. by destruct (IH _ H1 H2 Heq) as [-> ->].
Qed.

(** X15: the descriptor the loop compares is the architecture name, the
    bits and the ABI name joined by slashes.  For tables whose architecture
    names hold no slash, two descriptors are equal exactly when the three
    fields are equal, so the check is a check of the fields; with a slash
    in an architecture name, tables with different architecture names, bits
    and ABI names can have the same descriptor and pass the check. *)
Theorem descriptor_identifies_fields :
  (∀ t1 t2,
     slash_free (architecture_name t1) → slash_free (architecture_name t2) →
     (arch_bits_abi t1 = arch_bits_abi t2 ↔
        architecture_name t1 = architecture_name t2 ∧
        architecture_bits t1 = architecture_bits t2 ∧
        abi_name t1 = abi_name t2)) ∧
  (let t1 := {| version := "v1"; architecture_name := "a/1"; architecture_bits := 2;
                abi_name := "x"; syscalls := [] |} in
   let t2 := {| version := "v2"; architecture_name := "a"; architecture_bits := 1;
                abi_name := "2/x"; syscalls := [] |} in
   arch_bits_abi t1 = arch_bits_abi t2 ∧
   exit (loop (palette false) None None [t1; t2]) = Exit0).
Proof.
  split; [|done].
  intros t1 t2 H1 H2. unfold arch_bits_abi. split.
  - intros Heq. apply app_slash_inj in Heq as [Ha Heq]; [|done..].
    apply app_slash_inj in Heq as [Hb Hx]; [|apply slash_free_str..].
    apply (inj pretty) in Hb. done.
  - intros (-> & -> & ->). done.
Qed.

(** Two x86 tables: the architecture names hold no slash. *)
Lemma x86_descriptors_compare_fields :
  arch_bits_abi (mk "v5.9" "x86" []) = arch_bits_abi t_5_9 ↔
    architecture_name (mk "v5.9" "x86" []) = architecture_name t_5_9 ∧
    architecture_bits (mk "v5.9" "x86" []) = architecture_bits t_5_9 ∧
    abi_name (mk "v5.9" "x86" []) = abi_name t_5_9.
Proof.
  apply (proj1 descriptor_identifies_fields (mk "v5.9" "x86" []) t_5_9);
    apply (bool_decide_unpack _); by vm_compute.
Defined.

(** ** The first table *)

(** X16: the table that comes first after the sort is compared with
    nothing: its block is its count line and a bare newline, also when the
    run goes on to fail on a later table, and a run with one table prints
    this block only and succeeds. *)
Theorem first_table_has_no_summary (fs : filesystem) (isatty : bool)
    (argv : list string) (loaded : list Table) (t : Table) (rest : list Table) :
  3 ≤ length argv →
  load_tables fs (tail argv) = Some loaded →
  sort_tables loaded = inr (t :: rest) →
  NoDup (version <$> loaded) →
  (∃ more, stdout (main fs isatty argv) =
             count_line (version t) (syscalls_of t) +:+ Py.nl +:+ more) ∧
  (rest = [] →
   main fs isatty argv =
     {| stdout := count_line (version t) (syscalls_of t) +:+ Py.nl; exit := Exit0 |}).
Proof.
  intros Hlen Hload Hsort Hnd.
  rewrite (main_loaded _ _ _ _ Hlen Hload), Hsort, decide_True by done.
  rewrite loop_cons_none. cbn [stdout exit diff_report]. split; [by eexists|].
  intros ->. cbn. by rewrite app_nil_r_s.
Qed.

(** The four files of the architecture example: the run fails at the third
    table, and the line of v5.9 comes first. *)
Lemma first_line_of_mixed_files :
  ∃ more, stdout (main mixed_files false ["prog"; "*"; "*.json"]) =
            count_line "v5.9" (syscalls_of t_5_9) +:+ Py.nl +:+ more.
Proof.
  refine (proj1 (first_table_has_no_summary mixed_files false
    ["prog"; "*"; "*.json"] [t_6_0; t_arm; t_read_write; t_5_9]
    t_5_9 [t_read_write; t_arm; t_6_0] _ _ _ _)).
  - simpl. lia.
  - reflexivity.
  - reflexivity.
  - apply (bool_decide_unpack _). by vm_compute.
Defined.

(** ** How a run can end *)

Lemma loop_exit_differ c arch prev tables :
  exit (loop c arch prev tables) = Exit0 ∨
  ∃ x y, x ≠ y ∧ exit (loop c arch prev tables) = SysExit (incompatible x y).
Proof.
  revert arch prev. induction tables as [|t tables IH]; intros arch prev; [by left|].
  destruct arch as [x|].
  - destruct (decide (arch_bits_abi t = x)) as [Heq|Hne].
    + rewrite loop_cons_same by done. apply IH.
    + rewrite loop_cons_differ by done. right. exists x, (arch_bits_abi t).
      split; [done|]. done.
  - rewrite loop_cons_none. apply IH.
Qed.

Lemma loop_first_output c tables :
  tables ≠ [] → stdout (loop c None None tables) ≠ "".
Proof.
  destruct tables as [|t tables]; [done|]. intros _.
  rewrite loop_cons_none. cbn [stdout]. apply count_line_nonempty.
Qed.

(** X17: a run ends in one of five ways, and only two of them leave
    anything on standard output: success, and a mismatch of descriptors,
    which is found at the second table at the earliest and so always comes
    after at least one printed block.  The usage error, duplicate versions
    and every uncaught exception end the run before the first line. *)
Theorem run_ends_in_one_of_five_ways (fs : filesystem) (isatty : bool)
    (argv : list string) :
  let r := main fs isatty argv in
  exit r = Exit0 ∨
  ((∃ prog, head argv = Some prog ∧ exit r = SysExit (usage prog)) ∧
     length argv < 3 ∧ stdout r = "") ∨
  (exit r = SysExit duplicate_versions ∧ stdout r = "") ∨
  ((∃ x y, x ≠ y ∧ exit r = SysExit (incompatible x y)) ∧ stdout r ≠ "") ∨
  ((∃ e, exit r = Uncaught e) ∧ stdout r = "").
Proof.
  intros r. unfold r, main.
  destruct (length argv <? 3) eqn:Hlen.
  { apply Nat.ltb_lt in Hlen. destruct argv as [|prog argv].
    - do 4 right. split; [by eexists|done].
    - right. left. split; [by exists prog|done]. }
  destruct (load_tables fs (tail argv)) as [loaded|].
  2:{ do 4 right. split; [by eexists|done]. }
  destruct (sort_tables loaded) as [e|sorted].
  { do 4 right. split; [by eexists|done]. }
  case_decide as Hdup.
  { right. right. left. done. }
  destruct (loop_exit_differ (palette isatty) None None sorted) as [H0|Hxy];
    [by left|].
  do 3 right. left. split; [done|].
  apply loop_first_output. intros ->. by destruct Hxy as (? & ? & _ & ?).
Qed.

(** ** Colours *)

Lemma esc_free_cons ch s : esc_free (String ch s) ↔ ch ≠ Py.ESC ∧ esc_free s.
Proof.
  unfold esc_free. simpl. rewrite not_elem_of_cons. split; intros [? ?]; by split.
Qed.

Lemma without_codes_clean a b :
  esc_free a → without_codes false (a +:+ b) = a +:+ without_codes false b.
Proof.
  induction a as [|ch a IH]; intros Ha; [done|].
  apply esc_free_cons in Ha as [Hch Ha]. rewrite !app_String. cbn [without_codes].
  destruct (Ascii.eqb_spec ch Py.ESC); [done|]. by rewrite IH.
Qed.

Lemma without_codes_RED b :
  without_codes false (RED (palette true) +:+ b) = without_codes false b.
Proof. done. Qed.

Lemma without_codes_GREEN b :
  without_codes false (GREEN (palette true) +:+ b) = without_codes false b.
Proof. done. Qed.

Lemma without_codes_BLUE b :
  without_codes false (BLUE (palette true) +:+ b) = without_codes false b.
Proof. done. Qed.

Lemma without_codes_RESET b :
  without_codes false (RESET (palette true) +:+ b) = without_codes false b.
Proof. done. Qed.

Lemma empty_codes b :
  RED (palette false) +:+ b = b ∧ GREEN (palette false) +:+ b = b ∧
  BLUE (palette false) +:+ b = b ∧ RESET (palette false) +:+ b = b.
Proof. done. Qed.

Ltac uncode :=
  unfold PLUS, MINUS, RENAME;
  rewrite ?app_assoc_s;
  rewrite ?(proj1 (empty_codes _)), ?(proj1 (proj2 (empty_codes _))),
    ?(proj1 (proj2 (proj2 (empty_codes _)))), ?(proj2 (proj2 (proj2 (empty_codes _))));
  repeat first
    [ rewrite without_codes_RED | rewrite without_codes_GREEN
    | rewrite without_codes_BLUE | rewrite without_codes_RESET
    | rewrite without_codes_clean
        by first [ apply esc_free_str | apply esc_free_format_hex | assumption
                 | esc_literal ] ].

Lemma without_codes_summary t t' rest :
  n_added t = n_added t' → n_removed t = n_removed t' → n_renamed t = n_renamed t' →
  without_codes false (summary (palette true) t +:+ rest) =
    summary (palette false) t' +:+ without_codes false rest.
Proof.
  unfold summary. intros <- <- <-.
  repeat case_decide; try (exfalso; tauto); uncode; reflexivity.
Qed.

Lemma classify_plain o n :
  classify (palette false) o n = plain_entry <$> classify (palette true) o n.
Proof. destruct o, n; simpl; try done. by case_decide. Qed.

Lemma compare_plain prev cur :
  diff (compare (palette false) (added_set prev cur) (removed_set prev cur)) =
    plain_entry <$> diff (compare (palette true) (added_set prev cur) (removed_set prev cur)).
Proof.
  apply map_eq. intros k. rewrite lookup_fmap, !compare_classify.
  apply classify_plain.
Qed.

Lemma sorted_items_fmap (g : string * string → string * string) d :
  sorted_items (g <$> d) = prod_map id g <$> sorted_items d.
Proof.
  apply (StronglySorted_unique_strong num_lt).
  - unfold num_lt. intros x1 x2 _ _. lia.
  - apply sorted_items_sorted.
  - eapply StronglySorted_fmap; [|apply sorted_items_sorted]. by intros [] [].
  - rewrite !sorted_items_Permutation. by rewrite map_to_list_fmap.
Qed.

Lemma classify_colored o n e :
  (∀ v, o = Some v → esc_free v) → (∀ v, n = Some v → esc_free v) →
  classify (palette true) o n = Some e →
  (e.1 = PLUS (palette true) ∨ e.1 = MINUS (palette true) ∨ e.1 = RENAME (palette true)) ∧
  esc_free e.2.
Proof.
  intros Ho Hn. destruct o as [o|], n as [n|]; simpl; [case_decide|..];
    intros [= <-]; simpl; (split; [tauto|]); auto.
  apply esc_free_app_2; [auto|]. apply esc_free_app_2; [esc_literal|auto].
Qed.

Lemma without_codes_diff_line k e rest :
  e.1 = PLUS (palette true) ∨ e.1 = MINUS (palette true) ∨ e.1 = RENAME (palette true) →
  esc_free e.2 →
  without_codes false (diff_line (palette true) (k, e) +:+ rest) =
    diff_line (palette false) (k, plain_entry e) +:+ without_codes false rest.
Proof.
  destruct e as [op name]. unfold diff_line, plain_entry. cbn [fst snd].
  intros [-> | [-> | -> ] ] Hname.
  - change (without_codes false (PLUS (palette true))) with "+". uncode. reflexivity.
  - change (without_codes false (MINUS (palette true))) with "-". uncode. reflexivity.
  - change (without_codes false (RENAME (palette true))) with "R". uncode. reflexivity.
Qed.

Lemma without_codes_diff_lines (L : list (Z * (string * string))) rest :
  Forall (λ e, (e.2.1 = PLUS (palette true) ∨ e.2.1 = MINUS (palette true)
                ∨ e.2.1 = RENAME (palette true)) ∧ esc_free e.2.2) L →
  without_codes false (String.concat "" (diff_line (palette true) <$> L) +:+ rest) =
    String.concat "" (diff_line (palette false) <$> (prod_map id plain_entry <$> L))
      +:+ without_codes false rest.
Proof.
  induction 1 as [|[k e] L [Hop He] _ IH]; [done|].
  rewrite !fmap_cons, !concat_cons_s, !app_assoc_s.
  change (prod_map id plain_entry (k, e)) with (k, plain_entry e).
  rewrite without_codes_diff_line by done. by rewrite IH.
Qed.

Lemma without_codes_diff_report prev cur rest :
  (∀ d, prev = Some d → clean_dict d) → clean_dict cur →
  without_codes false (diff_report (palette true) prev cur +:+ rest) =
    diff_report (palette false) prev cur +:+ without_codes false rest.
Proof.
  intros Hprev Hcur. unfold diff_report. destruct prev as [d|]; [|done].
  case_decide; [done|]. specialize (Hprev d eq_refl).
  pose proof (added_set_functional d cur) as Ha.
  pose proof (removed_set_functional d cur) as Hr.
  destruct (compare_counts (palette true) _ _ Ha Hr) as (Hn & Hna & Hnr).
  destruct (compare_counts (palette false) _ _ Ha Hr) as (Hn' & Hna' & Hnr').
  rewrite !app_assoc_s.
  rewrite (without_codes_summary _
             (compare (palette false) (added_set d cur) (removed_set d cur)))
    by congruence.
  unfold diff_lines. rewrite compare_plain, sorted_items_fmap.
  rewrite without_codes_diff_lines; [done|].
  apply Forall_forall. intros [k e] Hin%elem_of_sorted_items.
  rewrite compare_classify in Hin.
  apply classify_colored in Hin; [done|..]; intros v Hv; [by eapply Hprev|by eapply Hcur].
Qed.

Lemma without_codes_loop arch prev tables :
  (∀ d, prev = Some d → clean_dict d) → Forall clean_table tables →
  without_codes false (stdout (loop (palette true) arch prev tables)) =
    stdout (loop (palette false) arch prev tables).
Proof.
  intros Hprev Ht. revert arch prev Hprev.
  induction Ht as [|t tables Hclean _ IH]; intros arch prev Hprev; [done|].
  assert (∀ x,
    without_codes false
      (count_line (version t) (syscalls_of t)
         +:+ diff_report (palette true) prev (syscalls_of t)
         +:+ stdout (loop (palette true) (Some x) (Some (syscalls_of t)) tables)) =
    count_line (version t) (syscalls_of t)
      +:+ diff_report (palette false) prev (syscalls_of t)
      +:+ stdout (loop (palette false) (Some x) (Some (syscalls_of t)) tables)) as Hgo.
  { intros x.
    rewrite without_codes_clean by (apply esc_free_count_line, Hclean).
    rewrite without_codes_diff_report by (done || by apply clean_syscalls_of).
    rewrite IH; [done|]. intros d [= <-]. by apply clean_syscalls_of. }
  destruct arch as [x|]; [|rewrite !loop_cons_none; apply Hgo].
  destruct (decide (arch_bits_abi t = x)) as [Heq|Hne].
  - rewrite !loop_cons_same by done. apply Hgo.
  - by rewrite !loop_cons_differ by done.
Qed.

(** X18: the report for a terminal and the report for a pipe or a file
    differ in the colour codes only.  When the version tags and syscall
    names of the loaded tables hold no escape character, taking the colour
    codes out of what the run prints on a terminal gives, character for
    character, what the same run prints without a terminal: the same
    lines, counts, symbols and names. *)
Theorem plain_report_is_colored_report_without_codes (fs : filesystem)
    (argv : list string) :
  (∀ f t, f ∈ resolved fs argv → json_load fs f = Some t → clean_table t) →
  without_codes false (stdout (main fs true argv)) = stdout (main fs false argv).
Proof.
  intros Hclean. unfold main. case_match; [by destruct argv|].
  destruct (load_tables fs (tail argv)) as [loaded|] eqn:Hload; [|done].
  destruct (sort_tables loaded) as [e|tables] eqn:Hsort; [done|].
  case_decide; [done|].
  apply without_codes_loop; [done|].
  apply sort_tables_inr in Hsort as (_ & Hperm & _).
  rewrite Hperm. apply Forall_forall. intros t Ht.
  destruct (load_tables_elem _ _ _ _ Hload Ht) as (f & Hf & Hl). by eapply Hclean.
Qed.

(** The rename example on a terminal: the summary and the diff line carry
    the blue code and the reset code, and without them the text is the one
    printed without a terminal. *)
Lemma rename_report_without_codes :
  without_codes false
    (stdout (main (files_of [("a", t_foo); ("b", t_bar)]) true ["prog"; "a"; "b"]))
  = stdout (main (files_of [("a", t_foo); ("b", t_bar)]) false ["prog"; "a"; "b"]).
Proof.
  apply (plain_report_is_colored_report_without_codes
           (files_of [("a", t_foo); ("b", t_bar)]) ["prog"; "a"; "b"]).
  intros f t Hf. revert Hf. unfold resolved. simpl. rewrite !elem_of_cons, elem_of_nil.
  intros [->|[->|[]]] [= <-]; split; simpl; repeat constructor; esc_literal.
Defined.
